(** * DS::Array, the growable array of the ds-algorithms library

    A shallow embedding of the class template [DS::Array<T>] (the header that
    declares [_capacity], [_size] and [_array]) and the proofs of the
    statements its specification makes about it.

    Conventions of the embedding.
    - [int] values are integers of [Z], and [int] is taken to have 32 bits.
      Signed overflow is undefined in C++: the computations that can leave
      the range of [int] on an object the class can build (the doubling in
      [grow], [++_capacity] in [insert_at], [index + (length - 1)] in
      [remove_at]) go through [int_result], which has undefined behaviour
      outside the range.  The other sums and differences of the class lie
      between [-1] and [_capacity] on a well-formed object and are computed
      in [Z].  The division of C++ truncates, it is [Z.quot].
    - The object is a record of its three data members.  A member function is
      a computation of the monad [M]: it receives the object, and either
      returns normally with a value and the object as it left it, or leaves by
      an exception (the object as it was at the [throw] is kept), or has
      undefined behaviour (an access through the null pointer or outside the
      allocated block).
    - A block obtained from [new T[n]] is a list of [n] slots.  The slots of a
      fresh block hold [T_default].  [_array] is [None] when it is the null
      pointer.  Blocks are never shared between two pointers in this class,
      so each pointer carries its block. *)

From Stdlib Require Import ZArith String Lia.
From stdpp Require Import base option list.

Open Scope Z_scope.

(** ** Exceptions *)

(** The exceptions the class throws, with their [what()] text.
    [new T[n]] with a negative [n] throws [std::bad_array_new_length]. *)
Inductive exn : Type :=
  | out_of_range (what : string)
  | runtime_error (what : string)
  | bad_array_new_length.

(** The names the specification gives to the throw sites. *)
Inductive ErrorKind : Type :=
  | InvalidArgument
  | IndexOutOfRange
  | Underflow
  | CapacityExceeded.

Definition error_kind (e : exn) : option ErrorKind :=
  match e with
  | out_of_range _ => Some IndexOutOfRange
  | runtime_error what =>
      if String.eqb what "Array is empty" then Some Underflow
      else if String.eqb what "Array is full" then Some CapacityExceeded
      else Some InvalidArgument
  | bad_array_new_length => None
  end.

Module Array.

Section Array.

Context {T : Type}.

(** The value of a slot of a fresh block. *)
Variable T_default : T.

(** [operator==] of [T]. *)
Variable T_eqb : T -> T -> bool.

(** ** The object *)

Record Array : Type := mkArray {
  _capacity : Z;
  _size : Z;
  _array : option (list T)
}.

(** ** The monad of member functions *)

Inductive outcome (A : Type) : Type :=
  | Ok (x : A) (this : Array)
  | Throw (e : exn) (this : Array)
  | Undefined.

Arguments Ok {A} x this.
Arguments Throw {A} e this.
Arguments Undefined {A}.

Definition M (A : Type) : Type := Array -> outcome A.

Definition ret {A} (x : A) : M A := fun this => Ok x this.

Definition bind {A B} (m : M A) (k : A -> M B) : M B :=
  fun this =>
    match m this with
    | Ok x this' => k x this'
    | Throw e this' => Throw e this'
    | Undefined => Undefined
    end.

Definition throw {A} (e : exn) : M A := fun this => Throw e this.

Definition undefined {A} : M A := fun _ => Undefined.

(** The bounds of [int]. *)
Definition INT_MAX : Z := 2147483647.

Definition INT_MIN : Z := -2147483648.

(** The value of an arithmetic expression of type [int] whose mathematical
    result is [z]: undefined behaviour when [z] is not a value of [int]. *)
Definition int_result (z : Z) : M Z :=
  if (INT_MIN <=? z) && (z <=? INT_MAX) then ret z else undefined.

(** Reading a data member, or calling a [const] member function. *)
Definition get {A} (f : Array -> A) : M A := fun this => Ok (f this) this.

Definition put_capacity (c : Z) : M unit :=
  fun this => Ok tt (mkArray c (_size this) (_array this)).

Definition put_size (n : Z) : M unit :=
  fun this => Ok tt (mkArray (_capacity this) n (_array this)).

Definition put_array (p : option (list T)) : M unit :=
  fun this => Ok tt (mkArray (_capacity this) (_size this) p).

Notation "x <- m ; k" := (bind m (fun x => k))
  (at level 20, m at level 100, k at level 200, only parsing).
Notation "m ;; k" := (bind m (fun _ => k))
  (at level 100, k at level 200, right associativity, only parsing).

(** [for (int i = lo; i < hi; ++i) body], for a body that assigns neither [i]
    nor a variable of the bound: [Z.to_nat (hi - lo)] rounds.  [acc] is what
    the body updates besides the object. *)
Fixpoint for_loop {S} (rounds : nat) (i : Z) (body : Z -> S -> M S) (acc : S)
  : M S :=
  match rounds with
  | O => ret acc
  | Datatypes.S rounds' =>
      acc' <- body i acc ; for_loop rounds' (i + 1) body acc'
  end.

Definition for_ {S} (lo hi : Z) (body : Z -> S -> M S) (acc : S) : M S :=
  for_loop (Z.to_nat (hi - lo)) lo body acc.

(** ** Blocks *)

(** [new T[n]] *)
Definition new_ (n : Z) : M (list T) :=
  if n <? 0 then throw bad_array_new_length
  else ret (replicate (Z.to_nat n) T_default).

(** [p[i]] read through a pointer to a block. *)
Definition load_at (p : option (list T)) (i : Z) : M T :=
  match p with
  | None => undefined
  | Some block =>
      if i <? 0 then undefined
      else match block !! Z.to_nat i with
           | Some x => ret x
           | None => undefined
           end
  end.

(** [_array[i]] read. *)
Definition load (i : Z) : M T := p <- get _array ; load_at p i.

(** [block[i] = x] for a local pointer to a block obtained from [new_]. *)
Definition store_local (block : list T) (i : Z) (x : T) : M (list T) :=
  if (0 <=? i) && (i <? Z.of_nat (length block))
  then ret (<[Z.to_nat i := x]> block)
  else undefined.

(** [_array[i] = x] *)
Definition store (i : Z) (x : T) : M unit :=
  p <- get _array ;
  match p with
  | None => undefined
  | Some block => block' <- store_local block i x ; put_array (Some block')
  end.

(** ** Private member functions *)

Definition index_in_bounds (this : Array) (index : Z) : bool :=
  (index >=? 0) && (index <? _size this).

Definition setter_index_in_bounds (this : Array) (index : Z) : bool :=
  (index >=? 0) && (index <=? _size this).

Definition is_valid_capacity (capacity : Z) : bool := capacity >=? 1.

Definition is_valid_size (size : Z) : bool := size >=? 0.

Definition set_capacity (capacity : Z) : M unit :=
  if negb (is_valid_capacity capacity)
  then throw (runtime_error "Invalid capacity")
  else put_capacity capacity.

Definition set_size (size : Z) : M unit :=
  if negb (is_valid_size size)
  then throw (runtime_error "Invalid size")
  else put_size size.

Definition full (this : Array) : bool := _size this =? _capacity this.

(** ** Public member functions *)

(** [delete[] _array; _array = nullptr; set_size(0);] *)
Definition clear : M unit :=
  put_array None ;;
  set_size 0.

Definition empty (this : Array) : bool := _size this =? 0.

Definition capacity (this : Array) : Z := _capacity this.

Definition size (this : Array) : Z := _size this.

Definition resize (new_capacity : Z) : M unit :=
  if negb (is_valid_capacity new_capacity)
  then throw (runtime_error "Invalid capacity argument")
  else
    cap <- get _capacity ;
    if new_capacity =? cap then ret tt
    else
      new_array <- new_ new_capacity ;
      sz <- get _size ;
      let copy_limit := Z.min new_capacity sz in
      new_array <- for_ 0 copy_limit
                     (fun i new_array => x <- load i ; store_local new_array i x)
                     new_array ;
      clear ;;
      put_array (Some new_array) ;;
      put_capacity new_capacity ;;
      put_size copy_limit.

Definition grow : M unit :=
  is_full <- get full ;
  if is_full then
    cap <- get _capacity ;
    new_capacity <- (if cap =? 0 then ret 1 else int_result (cap * 2)) ;
    resize new_capacity
  else ret tt.

Definition shrink : M unit :=
  sz <- get _size ;
  cap <- get _capacity ;
  if sz <? Z.quot cap 4 then resize (Z.quot cap 2) else ret tt.

(** [explicit Array(const int capacity = 1)].  The data members of the raw
    object are written before they are read; [raw] stands for them. *)
Definition raw : Array := mkArray 0 0 None.

Definition construct (capacity : Z) : outcome unit :=
  (set_capacity capacity ;;
   set_size 0 ;;
   block <- new_ capacity ;
   put_array (Some block)) raw.

Definition default_capacity : Z := 1.

(** [T operator[](const int index) const] *)
Definition operator_index_const (index : Z) : M T :=
  in_bounds <- get (fun this => index_in_bounds this index) ;
  if negb in_bounds then throw (out_of_range "Index out of bounds")
  else load index.

(** [T &operator[](const int index)].  The reference returned is the slot
    [index] of the block of [_array]; it is the value of the computation. *)
Definition slot_ref (index : Z) : M Z :=
  load index ;; ret index.

Definition operator_index (index : Z) : M Z :=
  in_bounds <- get (fun this => setter_index_in_bounds this index) ;
  if negb in_bounds then throw (out_of_range "Index out of bounds")
  else
    is_full <- get full ;
    if is_full then throw (runtime_error "Array is full")
    else
      sz <- get _size ;
      (if index =? sz then put_size (sz + 1) else ret tt) ;;
      slot_ref index.

Definition reverse : M unit :=
  is_empty <- get empty ;
  if is_empty then ret tt
  else
    sz <- get _size ;
    let mid := Z.quot (sz - 1) 2 in
    for_ 0 (mid + 1)
      (fun i _ =>
         sz <- get _size ;
         x <- load i ;
         y <- load (sz - 1 - i) ;
         store i y ;;
         store (sz - 1 - i) x)
      tt.

(** [_array[_size++] = value;] after the growth. *)
Definition push (value : T) : M unit :=
  is_full <- get full ;
  (if is_full then grow else ret tt) ;;
  sz <- get _size ;
  put_size (sz + 1) ;;
  store sz value.

(** The third statement of [pop] is [--size;].  [size] is the accessor
    [size()], not the data member [_size]: the statement is ill-formed (a
    compiler rejects it as soon as [pop] is instantiated), and no statement
    of [pop] writes [_size].  The model keeps [_size] as it is there.
    [_array[_size - 1].~T()] ends the lifetime of the last element; it needs
    the slot and leaves the block as it is. *)
Definition pop : M unit :=
  is_empty <- get empty ;
  if is_empty then throw (runtime_error "Array is empty")
  else
    sz <- get _size ;
    load (sz - 1) ;;
    shrink.

Definition at_ (index : Z) : M T :=
  in_bounds <- get (fun this => index_in_bounds this index) ;
  if negb in_bounds then throw (out_of_range "Index out of bounds")
  else load index.

Definition remove_at (index : Z) (length : Z) : M unit :=
  in_bounds <- get (fun this => index_in_bounds this index) ;
  if negb in_bounds then throw (out_of_range "Index out of bounds")
  else if length <? 0 then throw (runtime_error "Invalid length")
  else if length =? 0 then ret tt
  else
    end_delete_idx <- int_result (index + (length - 1)) ;
    sz <- get _size ;
    if end_delete_idx >=? sz then throw (out_of_range "Length is out of bounds")
    else
      cap <- get _capacity ;
      copy_arr <- new_ cap ;
      let new_size := sz - length in
      copy_arr <- for_ 0 index
                    (fun i copy_arr => x <- load i ; store_local copy_arr i x)
                    copy_arr ;
      copy_arr <- for_ (end_delete_idx + 1) sz
                    (fun i copy_arr =>
                       x <- load i ; store_local copy_arr (i - length) x)
                    copy_arr ;
      clear ;;
      put_array (Some copy_arr) ;;
      put_size new_size ;;
      shrink.

Definition insert_at (index : Z) (value : T) : M unit :=
  in_bounds <- get (fun this => index_in_bounds this index) ;
  if negb in_bounds then throw (out_of_range "Index out of bounds")
  else
    is_full <- get full ;
    new_capacity <-
      (if is_full
       then cap <- get _capacity ;
            cap <- int_result (cap + 1) ;
            put_capacity cap ;; ret cap
       else get _capacity) ;
    sz <- get _size ;
    let new_size := sz + 1 in
    copy_arr <- new_ new_capacity ;
    copy_arr <- for_ 0 index
                  (fun i copy_arr => x <- load i ; store_local copy_arr i x)
                  copy_arr ;
    copy_arr <- store_local copy_arr index value ;
    copy_arr <- for_ (index + 1) (sz + 1)
                  (fun i copy_arr =>
                     x <- load (i - 1) ; store_local copy_arr i x)
                  copy_arr ;
    clear ;;
    put_array (Some copy_arr) ;;
    put_capacity new_capacity ;;
    put_size new_size ;;
    grow.

Definition pop_back : M unit :=
  sz <- get _size ;
  remove_at (sz - 1) 1.

Definition pop_front : M unit := remove_at 0 1.

(** [for (int i = 0; i < _size; ++i) if (_array[i] == value) return i;] *)
Fixpoint find_loop (rounds : nat) (i : Z) (value : T) : M Z :=
  match rounds with
  | O => ret (-1)
  | Datatypes.S rounds' =>
      x <- load i ;
      if T_eqb x value then ret i else find_loop rounds' (i + 1) value
  end.

Definition find (value : T) : M Z :=
  sz <- get _size ;
  find_loop (Z.to_nat (sz - 0)) 0 value.

Definition remove (value : T) : M unit :=
  found_at <- find value ;
  if negb (found_at =? -1) then remove_at found_at 1 else ret tt.

(** ** The public operations as calls *)

(** The mutating operations of the public interface.  [run] performs one on
    the object and drops the reference [operator[]] returns. *)
Inductive call : Type :=
  | Push (value : T)
  | Pop
  | OperatorIndex (index : Z)
  | InsertAt (index : Z) (value : T)
  | RemoveAt (index length : Z)
  | PopBack
  | PopFront
  | Remove (value : T)
  | Resize (new_capacity : Z)
  | Reverse
  | Clear.

Definition run (c : call) : M unit :=
  match c with
  | Push value => push value
  | Pop => pop
  | OperatorIndex index => operator_index index ;; ret tt
  | InsertAt index value => insert_at index value
  | RemoveAt index length => remove_at index length
  | PopBack => pop_back
  | PopFront => pop_front
  | Remove value => remove value
  | Resize new_capacity => resize new_capacity
  | Reverse => reverse
  | Clear => clear
  end.

(** ** What the statements are about *)

(** The block [_array] points to; no slot when it is null. *)
Definition block_of (this : Array) : list T := default [] (_array this).

(** The representation invariant of the data model. *)
Definition inv (this : Array) : Prop := 0 <= _size this <= _capacity this.

(** A well-formed object: the invariant, and [_array] points to a block of
    [_capacity] slots (or is null when [_capacity] is [0]). *)
Definition wf (this : Array) : Prop :=
  inv this /\ Z.of_nat (length (block_of this)) = _capacity this.

(** The element sequence: the first [_size] slots. *)
Definition contents (this : Array) : list T :=
  take (Z.to_nat (_size this)) (block_of this).

End Array.

Arguments mkArray {T} _capacity _size _array.
Arguments Ok {T A} x this.
Arguments Throw {T A} e this.
Arguments Undefined {T A}.

Notation "x <- m ; k" := (bind m (fun x => k))
  (at level 20, m at level 100, k at level 200, only parsing).
Notation "m ;; k" := (bind m (fun _ => k))
  (at level 100, k at level 200, right associativity, only parsing).

(** ** Objects of [Array<int>] used in the examples *)

(** [{1, 2}] in a block of four slots. *)
Definition two_of_four : @Array Z :=
  mkArray 4 2 (Some [1; 2; 0; 0]).

(** [{1, 2}] in a full block. *)
Definition two_of_two : @Array Z :=
  mkArray 2 2 (Some [1; 2]).

(** [{1, 2, 3, 4}] in a full block. *)
Definition four_of_four : @Array Z :=
  mkArray 4 4 (Some [1; 2; 3; 4]).

(** [{7}] in a full block of one slot. *)
Definition one_of_one : @Array Z :=
  mkArray 1 1 (Some [7]).

(** The object [Array<int>()] builds, with [0] in its fresh slot. *)
Definition fresh : @Array Z :=
  mkArray 1 0 (Some [0]).

(** ** Callers of the public interface *)

Section Callers.

Context {T : Type}.

Variable T_default : T.

(** [for (const T &value : values) a.push(value);] *)
Fixpoint push_each (values : list T) : M unit :=
  match values with
  | [] => ret tt
  | value :: values' => push T_default value ;; push_each values'
  end.

(** The statement [a[index] = value;]: the assignment through the reference
    the mutable [operator[]] returns. *)
Definition assign_at (index : Z) (value : T) : M unit :=
  slot <- operator_index index ; store slot value.

(** ** Calls whose [int] computations stay in range *)

(** [push] doubles the capacity of a full array. *)
Definition push_fits (this : @Array T) : Prop :=
  _size this = _capacity this -> 2 * _capacity this <= INT_MAX.

(** [insert_at] adds one slot to a full array, and doubles the capacity when
    the array is full after the insertion. *)
Definition insert_at_fits (this : @Array T) : Prop :=
  (_size this = _capacity this -> 2 * (_capacity this + 1) <= INT_MAX) /\
  (_size this + 1 = _capacity this -> 2 * _capacity this <= INT_MAX).

(** The sums a call computes besides those bounded by the members. *)
Definition call_fits (c : @call T) (this : @Array T) : Prop :=
  match c with
  | Push _ => push_fits this
  | InsertAt _ _ => insert_at_fits this
  | RemoveAt index length => index + (length - 1) <= INT_MAX
  | _ => True
  end.

End Callers.

(** * Proofs *)

Section Proofs.

Context {T : Type} (T_default : T).

Implicit Types (this : @Array T) (block src dst : list T) (value : T).

(** ** Running a computation step by step *)

Lemma bind_get {A B} (f : @Array T -> A) (k : A -> M B) this :
  bind (get f) k this = k (f this) this.
Proof. reflexivity. Qed.

Lemma bind_ret {A B} (x : A) (k : A -> M B) this :
  bind (ret x) k this = k x this.
Proof. reflexivity. Qed.

Lemma bind_throw {A B} (e : exn) (k : A -> M B) this :
  bind (throw e) k this = Throw e this.
Proof. reflexivity. Qed.

Lemma bind_put_capacity {B} c (k : unit -> M B) this :
  bind (put_capacity c) k this = k tt (mkArray c (_size this) (_array this)).
Proof. reflexivity. Qed.

Lemma bind_put_size {B} n (k : unit -> M B) this :
  bind (put_size n) k this = k tt (mkArray (_capacity this) n (_array this)).
Proof. reflexivity. Qed.

Lemma bind_put_array {B} p (k : unit -> M B) this :
  bind (put_array p) k this = k tt (mkArray (_capacity this) (_size this) p).
Proof. reflexivity. Qed.

Lemma bind_clear {B} (k : unit -> M B) this :
  bind clear k this = k tt (mkArray (_capacity this) 0 None).
Proof. reflexivity. Qed.

Lemma bind_bind {A B C} (m : M A) (f : A -> M B) (g : B -> M C) this :
  bind (bind m f) g this = bind m (fun x => bind (f x) g) this.
Proof. unfold bind. destruct (m this); reflexivity. Qed.

Lemma bind_Ok {A B} (m : M A) (k : A -> M B) this x this' :
  m this = Ok x this' -> bind m k this = k x this'.
Proof. intros H. unfold bind. rewrite H. reflexivity. Qed.

Lemma bind_Ok_inv {A B} (m : M A) (k : A -> M B) this y this'' :
  bind m k this = Ok y this'' ->
  exists x this', m this = Ok x this' /\ k x this' = Ok y this''.
Proof.
  unfold bind. destruct (m this) as [x this'| |]; try discriminate.
  intros H. exists x, this'. split; [reflexivity | exact H].
Qed.

Ltac run_steps :=
  repeat first
    [ rewrite bind_get | rewrite bind_ret | rewrite bind_throw
    | rewrite bind_put_capacity | rewrite bind_put_size
    | rewrite bind_put_array | rewrite bind_clear | rewrite bind_bind ].

(** Arithmetic with the truncating division. *)
Ltac quot_lia := Z.to_euclidean_division_equations; lia.

(** Arithmetic with the bounds of [int]. *)
Ltac int_lia := unfold INT_MAX, INT_MIN in *; lia.

(** ** Results of [int] expressions *)

Lemma int_result_in z this :
  INT_MIN <= z <= INT_MAX -> int_result z this = Ok z this.
Proof.
  intros H. unfold int_result.
  destruct (Z.leb_spec INT_MIN z); [|lia].
  destruct (Z.leb_spec z INT_MAX); [|lia]. reflexivity.
Qed.

Lemma int_result_out z this :
  ~ (INT_MIN <= z <= INT_MAX) -> int_result z this = Undefined.
Proof.
  intros H. unfold int_result.
  destruct (Z.leb_spec INT_MIN z); destruct (Z.leb_spec z INT_MAX);
    try reflexivity; lia.
Qed.

Lemma int_result_Ok_inv z this r this' :
  int_result z this = Ok r this' ->
  r = z /\ this' = this /\ INT_MIN <= z <= INT_MAX.
Proof.
  unfold int_result.
  destruct (Z.leb_spec INT_MIN z); destruct (Z.leb_spec z INT_MAX);
    try discriminate.
  unfold ret. intros [= -> ->]. auto.
Qed.

(** ** Blocks *)

Lemma load_Some this src i x :
  _array this = Some src -> 0 <= i -> src !! Z.to_nat i = Some x ->
  load i this = Ok x this.
Proof.
  intros Hsrc Hi Hx. unfold load, load_at. rewrite bind_get, Hsrc.
  destruct (Z.ltb_spec i 0); [lia|]. rewrite Hx. reflexivity.
Qed.

Lemma load_Ok_inv this i x this' :
  load i this = Ok x this' ->
  this' = this /\ 0 <= i /\ block_of this !! Z.to_nat i = Some x.
Proof.
  unfold load, load_at, block_of. rewrite bind_get.
  destruct (_array this) as [src|]; [|discriminate].
  destruct (Z.ltb_spec i 0); [discriminate|].
  destruct (src !! Z.to_nat i) eqn:Hx; [|discriminate].
  unfold ret. intros [= -> ->]. auto.
Qed.

Lemma store_local_in dst i x this :
  0 <= i < Z.of_nat (length dst) ->
  store_local dst i x this = Ok (<[Z.to_nat i := x]> dst) this.
Proof.
  intros Hi. unfold store_local.
  destruct (Z.leb_spec 0 i); [|lia].
  destruct (Z.ltb_spec i (Z.of_nat (length dst))); [|lia].
  reflexivity.
Qed.

Lemma store_local_Ok_inv dst i x this dst' this' :
  store_local dst i x this = Ok dst' this' -> this' = this.
Proof.
  unfold store_local.
  destruct ((0 <=? i) && (i <? Z.of_nat (length dst))); [|discriminate].
  unfold ret. intros [= _ ->]. reflexivity.
Qed.

Lemma store_Ok_inv i x this u this' :
  store i x this = Ok u this' ->
  _capacity this' = _capacity this /\ _size this' = _size this.
Proof.
  unfold store. rewrite bind_get.
  destruct (_array this) as [src|]; [|discriminate].
  intros H. apply bind_Ok_inv in H as (dst' & this1 & H1 & H2).
  apply store_local_Ok_inv in H1 as ->.
  unfold put_array in H2. injection H2 as _ <-. auto.
Qed.

(** ** Loops *)

(** A property of the object that each round keeps is kept by the loop. *)
Lemma for_loop_keeps {S} (P : @Array T -> Prop) (body : Z -> S -> M S) :
  (forall i acc this acc' this',
      P this -> body i acc this = Ok acc' this' -> P this') ->
  forall rounds i acc this acc' this',
    P this -> for_loop rounds i body acc this = Ok acc' this' -> P this'.
Proof.
  intros Hbody rounds.
  induction rounds as [|rounds IH]; intros i acc this acc' this' HP H; simpl in H.
  - unfold ret in H. injection H as _ <-. exact HP.
  - apply bind_Ok_inv in H as (acc1 & this1 & H1 & H2).
    eapply IH; [|exact H2]. eapply Hbody; eassumption.
Qed.

(** The loops that fill a fresh block from the block of [_array]:
    [dst[i + kd] = _array[i + ks]] for [rounds] values of [i] from [lo]. *)
Lemma copy_loop_spec (fs fd : Z -> Z) (ks kd : Z) :
  (forall i, fs i = i + ks) -> (forall i, fd i = i + kd) ->
  forall (rounds : nat) lo dst this,
    0 <= lo + ks ->
    (Z.to_nat (lo + ks) + rounds <= length (block_of this))%nat ->
    0 <= lo + kd ->
    (Z.to_nat (lo + kd) + rounds <= length dst)%nat ->
    for_loop rounds lo
      (fun i dst => x <- load (fs i) ; store_local dst (fd i) x) dst this
    = Ok (take (Z.to_nat (lo + kd)) dst
            ++ take rounds (drop (Z.to_nat (lo + ks)) (block_of this))
            ++ drop (Z.to_nat (lo + kd) + rounds) dst) this.
Proof.
  intros Hfs Hfd rounds.
  induction rounds as [|n IH]; intros lo dst this Hs Hsn Hd Hdn.
  - simpl. unfold ret. rewrite Nat.add_0_r, take_drop. reflexivity.
  - simpl.
    destruct (_array this) as [src|] eqn:Harr;
      unfold block_of in *; rewrite Harr in *; simpl in *; [|lia].
    destruct (lookup_lt_is_Some_2 src (Z.to_nat (lo + ks))) as [x Hx]; [lia|].
    rewrite Hfs, Hfd.
    erewrite bind_Ok;
      [|erewrite bind_Ok by (eapply load_Some; eassumption);
        apply store_local_in; lia].
    rewrite IH; unfold block_of; rewrite ?Harr; simpl;
      rewrite ?length_insert; try lia.
    f_equal.
    replace (Z.to_nat (lo + 1 + kd)) with (S (Z.to_nat (lo + kd))) by lia.
    replace (Z.to_nat (lo + 1 + ks)) with (S (Z.to_nat (lo + ks))) by lia.
    rewrite (drop_S src x (Z.to_nat (lo + ks)) Hx). simpl.
    rewrite (take_S_r _ _ x) by (apply list_lookup_insert_eq; lia).
    rewrite take_insert_ge by lia.
    rewrite drop_insert_lt by lia.
    rewrite <- app_assoc. simpl.
    replace (Z.to_nat (lo + kd) + S n)%nat
      with (S (Z.to_nat (lo + kd)) + n)%nat by lia.
    reflexivity.
Qed.

(** [for (i = 0; i < hi; ++i) dst[i] = _array[i];] *)
Lemma copy_prefix_spec hi dst this :
  (Z.to_nat hi <= length (block_of this))%nat ->
  (Z.to_nat hi <= length dst)%nat ->
  for_ 0 hi (fun i dst => x <- load i ; store_local dst i x) dst this
  = Ok (take (Z.to_nat hi) (block_of this) ++ drop (Z.to_nat hi) dst) this.
Proof.
  intros Hs Hd. unfold for_.
  pose proof (copy_loop_spec (fun i => i) (fun i => i) 0 0
                (fun i => eq_sym (Z.add_0_r i)) (fun i => eq_sym (Z.add_0_r i))
                (Z.to_nat (hi - 0)) 0 dst this) as H.
  cbv beta in H. rewrite H by lia.
  change (Z.to_nat (0 + 0)) with 0%nat. rewrite take_0, drop_0. simpl.
  replace (Z.to_nat (hi - 0)) with (Z.to_nat hi) by lia. reflexivity.
Qed.

(** The copy loops do not touch the object. *)
Lemma copy_loop_pure (fs fd : Z -> Z) rounds lo dst this dst' this' :
  for_loop rounds lo
    (fun i dst => x <- load (fs i) ; store_local dst (fd i) x) dst this
  = Ok dst' this' ->
  this' = this.
Proof.
  apply (for_loop_keeps (fun s => s = this)); [|reflexivity].
  intros i acc s acc' s' -> H.
  apply bind_Ok_inv in H as (x & s1 & H1 & H2).
  apply load_Ok_inv in H1 as (-> & _). eapply store_local_Ok_inv; eassumption.
Qed.

(** ** [resize], [grow], [shrink] *)

Lemma resize_invalid new_capacity this :
  new_capacity < 1 ->
  resize T_default new_capacity this
  = Throw (runtime_error "Invalid capacity argument") this.
Proof.
  intros H. unfold resize, is_valid_capacity.
  destruct (Z.geb_spec new_capacity 1); [lia | reflexivity].
Qed.

Lemma resize_same this :
  1 <= _capacity this -> resize T_default (_capacity this) this = Ok tt this.
Proof.
  intros H. unfold resize, is_valid_capacity.
  destruct (Z.geb_spec (_capacity this) 1); [|lia]. simpl.
  rewrite bind_get, Z.eqb_refl. reflexivity.
Qed.

(** The reallocation, when the first [_size] slots exist. *)
Lemma resize_realloc new_capacity this :
  1 <= new_capacity -> new_capacity <> _capacity this ->
  0 <= _size this <= Z.of_nat (length (block_of this)) ->
  let copy_limit := Z.min new_capacity (_size this) in
  resize T_default new_capacity this
  = Ok tt (mkArray new_capacity copy_limit
             (Some (take (Z.to_nat copy_limit) (block_of this)
                      ++ replicate (Z.to_nat (new_capacity - copy_limit))
                           T_default))).
Proof.
  intros Hn Hne Hsz copy_limit. unfold resize, is_valid_capacity, new_.
  destruct (Z.geb_spec new_capacity 1); [|lia]. simpl.
  rewrite bind_get. destruct (Z.eqb_spec new_capacity (_capacity this)); [lia|].
  destruct (Z.ltb_spec new_capacity 0); [lia|].
  run_steps. fold copy_limit.
  erewrite bind_Ok
    by (apply copy_prefix_spec; rewrite ?length_replicate; lia).
  run_steps. unfold put_size. simpl.
  rewrite drop_replicate.
  replace (Z.to_nat new_capacity - Z.to_nat copy_limit)%nat
    with (Z.to_nat (new_capacity - copy_limit)) by lia.
  reflexivity.
Qed.

(** What a successful [resize] does to the two counters, whatever the
    object. *)
Lemma resize_Ok_inv new_capacity this u this' :
  resize T_default new_capacity this = Ok u this' ->
  1 <= new_capacity /\
  ((new_capacity = _capacity this /\ this' = this) \/
   (new_capacity <> _capacity this /\
    _capacity this' = new_capacity /\
    _size this' = Z.min new_capacity (_size this))).
Proof.
  unfold resize, is_valid_capacity, new_.
  destruct (Z.geb_spec new_capacity 1); [|discriminate]. simpl.
  rewrite bind_get. destruct (Z.eqb_spec new_capacity (_capacity this)).
  - unfold ret. intros [= _ <-]. split; [lia|]. left. auto.
  - destruct (Z.ltb_spec new_capacity 0); [lia|]. run_steps.
    intros Hrun. apply bind_Ok_inv in Hrun as (dst' & this1 & H1 & H2).
    apply copy_loop_pure in H1 as ->. revert H2. run_steps.
    unfold put_size. intros [= _ <-]. simpl.
    split; [lia|]. right. auto.
Qed.

Lemma contents_mk cap sz block :
  contents (mkArray cap sz (Some block)) = take (Z.to_nat sz) block.
Proof. reflexivity. Qed.

Lemma resize_wf new_capacity this :
  wf this -> 1 <= new_capacity -> new_capacity <> _capacity this ->
  exists this',
    resize T_default new_capacity this = Ok tt this' /\
    wf this' /\
    _capacity this' = new_capacity /\
    _size this' = Z.min new_capacity (_size this) /\
    contents this'
    = take (Z.to_nat (Z.min new_capacity (_size this))) (contents this).
Proof.
  intros [Hinv Hlen] Hn Hne. unfold inv in Hinv.
  eexists. split; [apply resize_realloc; lia|].
  unfold wf, inv, contents, block_of. simpl.
  rewrite length_app, length_take, length_replicate.
  fold (block_of this).
  repeat split; try lia.
  rewrite take_app_length' by (rewrite length_take; lia).
  rewrite take_take. f_equal. lia.
Qed.

Lemma grow_Ok_inv this u this' :
  grow T_default this = Ok u this' ->
  (full this = false /\ this' = this) \/
  (full this = true /\
   _capacity this' = (if _capacity this =? 0 then 1 else _capacity this * 2) /\
   _size this'
   = Z.min (if _capacity this =? 0 then 1 else _capacity this * 2)
       (_size this)).
Proof.
  unfold grow. rewrite bind_get. destruct (full this) eqn:Hfull.
  - rewrite bind_get. intros H. right. split; [reflexivity|].
    apply bind_Ok_inv in H as (n & this1 & Hn & H).
    assert (n = (if _capacity this =? 0 then 1 else _capacity this * 2) /\
            this1 = this) as (-> & ->).
    { destruct (_capacity this =? 0).
      - unfold ret in Hn. injection Hn as <- <-. auto.
      - apply int_result_Ok_inv in Hn as (-> & -> & _). auto. }
    apply resize_Ok_inv in H as (Hn' & [(Heq & _) | (_ & Hc & Hs)]); [|auto].
    destruct (Z.eqb_spec (_capacity this) 0); lia.
  - unfold ret. intros [= _ <-]. left. auto.
Qed.

Lemma grow_wf this :
  wf this -> (full this = true -> 2 * _capacity this <= INT_MAX) ->
  exists this',
    grow T_default this = Ok tt this' /\
    wf this' /\
    _capacity this'
    = (if full this
       then if _capacity this =? 0 then 1 else _capacity this * 2
       else _capacity this) /\
    _size this' = _size this /\
    contents this' = contents this.
Proof.
  intros Hwf Hfits. pose proof Hwf as [Hinv Hlen]. unfold inv in Hinv.
  unfold grow. rewrite bind_get. revert Hfits. unfold full.
  destruct (Z.eqb_spec (_size this) (_capacity this)) as [Hfull|Hfull];
    intros Hfits.
  - rewrite bind_get. specialize (Hfits eq_refl).
    assert ((if _capacity this =? 0 then ret 1
             else int_result (_capacity this * 2)) this
            = Ok (if _capacity this =? 0 then 1 else _capacity this * 2) this)
      as Hnew.
    { destruct (_capacity this =? 0); [reflexivity|].
      apply int_result_in. int_lia. }
    erewrite bind_Ok by exact Hnew.
    destruct (resize_wf (if _capacity this =? 0 then 1 else _capacity this * 2)
                this Hwf)
      as (this' & Hrun & Hwf' & Hc & Hs & Hcont);
      [destruct (Z.eqb_spec (_capacity this) 0); lia ..|].
    exists this'. rewrite Hrun, Hc, Hs, Hcont.
    assert (Z.min (if _capacity this =? 0 then 1 else _capacity this * 2)
              (_size this) = _size this) as ->
        by (destruct (Z.eqb_spec (_capacity this) 0); lia).
    repeat split; try apply Hwf'.
    unfold contents. rewrite take_take. f_equal. lia.
  - exists this. auto.
Qed.

Lemma shrink_Ok_inv this u this' :
  shrink T_default this = Ok u this' ->
  (this' = this) \/
  (_size this < Z.quot (_capacity this) 4 /\
   _capacity this' = Z.quot (_capacity this) 2 /\
   _size this' = Z.min (Z.quot (_capacity this) 2) (_size this)).
Proof.
  unfold shrink. rewrite !bind_get.
  destruct (Z.ltb_spec (_size this) (Z.quot (_capacity this) 4)).
  - intros H'. apply resize_Ok_inv in H' as (Hn & [(_ & ->) | (_ & Hc & Hs)]);
      auto.
  - unfold ret. intros [= _ <-]. auto.
Qed.

Lemma shrink_wf this :
  wf this ->
  exists this',
    shrink T_default this = Ok tt this' /\
    wf this' /\
    _capacity this'
    = (if _size this <? Z.quot (_capacity this) 4
       then Z.quot (_capacity this) 2
       else _capacity this) /\
    _size this' = _size this /\
    contents this' = contents this.
Proof.
  intros Hwf. pose proof Hwf as [Hinv Hlen]. unfold inv in Hinv.
  unfold shrink. rewrite !bind_get.
  destruct (Z.ltb_spec (_size this) (Z.quot (_capacity this) 4)) as [Hlt|Hge].
  - destruct (resize_wf (Z.quot (_capacity this) 2) this Hwf)
      as (this' & Hrun & Hwf' & Hc & Hs & Hcont); [quot_lia ..|].
    exists this'. rewrite Hrun, Hc, Hs, Hcont.
    assert (Z.min (Z.quot (_capacity this) 2) (_size this) = _size this) as ->
        by quot_lia.
    repeat split; try apply Hwf'.
    unfold contents. rewrite take_take. f_equal. lia.
  - exists this. auto.
Qed.

(** ** Slots of a well-formed object *)

Lemma wf_block this :
  wf this -> 0 < _capacity this ->
  exists block,
    _array this = Some block /\ Z.of_nat (length block) = _capacity this.
Proof.
  intros [_ Hlen] Hpos. unfold block_of in Hlen.
  destruct (_array this) as [block|]; simpl in Hlen; [eauto | lia].
Qed.

Lemma load_wf this i :
  wf this -> 0 <= i < _capacity this ->
  exists x, load i this = Ok x this /\ block_of this !! Z.to_nat i = Some x.
Proof.
  intros Hwf Hi.
  destruct (wf_block this Hwf) as (block & Harr & Hlen); [lia|].
  destruct (lookup_lt_is_Some_2 block (Z.to_nat i)) as [x Hx]; [lia|].
  exists x. split; [eapply load_Some; eauto; lia|].
  unfold block_of. rewrite Harr. exact Hx.
Qed.

Lemma store_Some this block i x :
  _array this = Some block -> 0 <= i < Z.of_nat (length block) ->
  store i x this
  = Ok tt (mkArray (_capacity this) (_size this)
             (Some (<[Z.to_nat i := x]> block))).
Proof.
  intros Harr Hi. unfold store. rewrite bind_get, Harr.
  erewrite bind_Ok by (apply store_local_in; exact Hi). reflexivity.
Qed.

(** ** [clear] *)

Lemma clear_spec this :
  clear this = Ok tt (mkArray (_capacity this) 0 None).
Proof. reflexivity. Qed.

(** ** [push] *)

Lemma push_Ok_inv value this u this' :
  inv this -> push T_default value this = Ok u this' -> inv this'.
Proof.
  unfold inv, push. intros Hinv. rewrite bind_get. intros H.
  apply bind_Ok_inv in H as (u1 & this1 & Hgrow & H).
  revert H. run_steps. intros H. apply store_Ok_inv in H as (Hc & Hs).
  simpl in Hc, Hs. rewrite Hc, Hs. clear Hc Hs.
  destruct (full this) eqn:Hfull; unfold full in Hfull.
  - apply grow_Ok_inv in Hgrow as [(Hnot & _) | (_ & Hc & Hs)].
    + unfold full in Hnot. congruence.
    + rewrite Hc, Hs. apply Z.eqb_eq in Hfull. destruct (Z.eqb_spec (_capacity this) 0); lia.
  - unfold ret in Hgrow. injection Hgrow as _ <-.
    apply Z.eqb_neq in Hfull. lia.
Qed.

Lemma push_wf value this :
  wf this -> (full this = true -> 2 * _capacity this <= INT_MAX) ->
  exists this',
    push T_default value this = Ok tt this' /\
    wf this' /\
    _capacity this'
    = (if full this
       then if _capacity this =? 0 then 1 else _capacity this * 2
       else _capacity this) /\
    _size this' = _size this + 1 /\
    contents this' = contents this ++ [value].
Proof.
  intros Hwf Hfits. unfold push. rewrite bind_get.
  assert (exists this1,
             (if full this then grow T_default else ret tt) this = Ok tt this1 /\
             wf this1 /\
             _capacity this1
             = (if full this
                then if _capacity this =? 0 then 1 else _capacity this * 2
                else _capacity this) /\
             _size this1 = _size this /\
             contents this1 = contents this /\
             _size this1 < _capacity this1)
    as (this1 & Hrun & Hwf1 & Hc & Hs & Hcont & Hroom).
  { destruct (full this) eqn:Hfull.
    - destruct (grow_wf this Hwf) as (this1 & Hrun & Hwf1 & Hc & Hs & Hcont);
        [rewrite Hfull; exact Hfits|].
      exists this1. rewrite Hfull in Hc. repeat split; auto; try apply Hwf1.
      rewrite Hc, Hs. destruct Hwf as [Hinv _]. unfold inv in Hinv.
      destruct (Z.eqb_spec (_capacity this) 0); lia.
    - exists this. repeat split; auto; try apply Hwf.
      destruct Hwf as [Hinv _]. unfold inv, full in *. lia. }
  erewrite bind_Ok by exact Hrun. run_steps.
  destruct Hwf1 as [Hinv1 Hlen1]. unfold inv in Hinv1.
  destruct (wf_block this1) as (block & Harr & Hlen);
    [split; assumption | lia |].
  rewrite (store_Some _ block) by (simpl; first [exact Harr | lia]).
  eexists. split; [reflexivity|]. rewrite <- Hcont.
  unfold wf, inv, contents, block_of. simpl. rewrite Harr. simpl.
  rewrite length_insert. repeat split; try lia; try assumption.
  replace (Z.to_nat (_size this1 + 1)) with (S (Z.to_nat (_size this1))) by lia.
  rewrite (take_S_r _ _ value) by (apply list_lookup_insert_eq; lia).
  rewrite take_insert_ge by lia. reflexivity.
Qed.


(** ** [operator[]] (mutable) *)

Lemma operator_index_out_of_range index this :
  ~ (0 <= index <= _size this) ->
  operator_index index this = Throw (out_of_range "Index out of bounds") this.
Proof.
  intros H. unfold operator_index, setter_index_in_bounds. rewrite bind_get.
  destruct (Z.geb_spec index 0); destruct (Z.leb_spec index (_size this));
    simpl; try reflexivity; lia.
Qed.

Lemma operator_index_full index this :
  0 <= index <= _size this -> full this = true ->
  operator_index index this = Throw (runtime_error "Array is full") this.
Proof.
  intros H Hfull. unfold operator_index, setter_index_in_bounds.
  rewrite bind_get.
  destruct (Z.geb_spec index 0); [|lia].
  destruct (Z.leb_spec index (_size this)); [|lia]. simpl.
  rewrite bind_get, Hfull. reflexivity.
Qed.

Lemma operator_index_inside index this :
  wf this -> 0 <= index < _size this -> full this = false ->
  operator_index index this = Ok index this.
Proof.
  intros Hwf H Hfull. unfold operator_index, setter_index_in_bounds.
  rewrite bind_get.
  destruct (Z.geb_spec index 0); [|lia].
  destruct (Z.leb_spec index (_size this)); [|lia]. simpl.
  rewrite !bind_get, Hfull. rewrite bind_get.
  pose proof Hwf as [Hinv Hlen]. unfold inv, full in *.
  destruct (wf_block this Hwf) as (block & Harr & Hblock); [lia|].
  destruct (lookup_lt_is_Some_2 block (Z.to_nat index)) as [x Hx]; [lia|].
  unfold slot_ref.
  destruct (Z.eqb_spec index (_size this)); [lia|]. run_steps.
  erewrite bind_Ok by (eapply load_Some; eauto; lia). reflexivity.
Qed.

Lemma operator_index_boundary this :
  wf this -> full this = false ->
  operator_index (_size this) this
  = Ok (_size this)
      (mkArray (_capacity this) (_size this + 1) (_array this)).
Proof.
  intros Hwf Hfull. unfold operator_index, setter_index_in_bounds.
  rewrite bind_get.
  pose proof Hwf as [Hinv Hlen]. unfold inv, full in *.
  apply Z.eqb_neq in Hfull.
  destruct (Z.geb_spec (_size this) 0); [|lia].
  destruct (Z.leb_spec (_size this) (_size this)); [|lia]. simpl.
  rewrite !bind_get.
  destruct (Z.eqb_spec (_size this) (_capacity this)); [lia|].
  rewrite bind_get, Z.eqb_refl.
  destruct (wf_block this Hwf) as (block & Harr & Hblock); [lia|].
  destruct (lookup_lt_is_Some_2 block (Z.to_nat (_size this))) as [x Hx];
    [lia|].
  unfold slot_ref. run_steps.
  erewrite bind_Ok by (eapply load_Some; simpl; eauto; lia). reflexivity.
Qed.

Lemma operator_index_Ok_inv index this r this' :
  inv this -> operator_index index this = Ok r this' -> inv this'.
Proof.
  unfold inv, operator_index. intros Hinv. rewrite bind_get.
  destruct (negb (setter_index_in_bounds this index)); [discriminate|].
  rewrite bind_get. destruct (full this) eqn:Hfull; [discriminate|].
  rewrite bind_get. unfold full in Hfull. unfold slot_ref.
  destruct (Z.eqb_spec index (_size this)); run_steps; intros H;
    apply bind_Ok_inv in H as (x & this1 & H1 & H2);
    apply load_Ok_inv in H1 as (-> & _);
    unfold ret in H2; injection H2 as _ <-; simpl; lia.
Qed.

(** ** [insert_at] *)

(** [for (i = index + 1; i <= _size; ++i) dst[i] = _array[i - 1];] *)
Lemma copy_shifted_up_spec lo hi dst this :
  1 <= lo ->
  (Z.to_nat (lo - 1) + Z.to_nat (hi - lo) <= length (block_of this))%nat ->
  (Z.to_nat lo + Z.to_nat (hi - lo) <= length dst)%nat ->
  for_ lo hi (fun i dst => x <- load (i - 1) ; store_local dst i x) dst this
  = Ok (take (Z.to_nat lo) dst
          ++ take (Z.to_nat (hi - lo)) (drop (Z.to_nat (lo - 1)) (block_of this))
          ++ drop (Z.to_nat lo + Z.to_nat (hi - lo)) dst) this.
Proof.
  intros Hlo Hs Hd. unfold for_.
  pose proof (copy_loop_spec (fun i => i - 1) (fun i => i) (-1) 0
                (fun i => eq_refl) (fun i => eq_sym (Z.add_0_r i))
                (Z.to_nat (hi - lo)) lo dst this) as H.
  cbv beta in H. rewrite H; rewrite ?Z.add_0_r; try lia.
  replace (lo + -1) with (lo - 1) by lia. reflexivity.
Qed.

(** The sequence with a value put at a position. *)
Lemma insert_layout (a m : nat) (src fresh : list T) value :
  (a <= m)%nat -> (m <= length src)%nat -> (m < length fresh)%nat ->
  let dst1 := take a src ++ drop a fresh in
  let dst2 := <[a := value]> dst1 in
  let dst3 := take (S a) dst2 ++ take (m - a) (drop a src)
                ++ drop (S a + (m - a)) dst2 in
  length dst3 = length fresh /\
  take (S m) dst3 = take a (take m src) ++ value :: drop a (take m src).
Proof.
  intros Ham Hms Hmf dst1 dst2 dst3.
  assert (length dst1 = length fresh) as Hlen1.
  { unfold dst1. rewrite length_app, length_take, length_drop. lia. }
  assert (length dst2 = length fresh) as Hlen2.
  { unfold dst2. rewrite length_insert. exact Hlen1. }
  assert (take (S a) dst2 = take a src ++ [value]) as Hhead.
  { unfold dst2. rewrite (take_S_r _ _ value)
      by (apply list_lookup_insert_eq; lia).
    rewrite take_insert_ge by lia. unfold dst1.
    rewrite take_app_length' by (rewrite length_take; lia). reflexivity. }
  split.
  - unfold dst3. rewrite !length_app, !length_take, !length_drop. lia.
  - unfold dst3. rewrite Hhead, app_assoc.
    rewrite take_app_length'
      by (rewrite !length_app, !length_take, length_drop; simpl; lia).
    rewrite <- app_assoc. simpl. rewrite take_take.
    replace (a `min` m)%nat with a by lia.
    rewrite (take_drop_commute src (m - a) a).
    replace (a + (m - a))%nat with m by lia. reflexivity.
Qed.

Lemma block_of_fields c n this :
  block_of (mkArray c n (_array this)) = block_of this.
Proof. reflexivity. Qed.

(** [insert_at] up to its last statement. *)
Lemma insert_at_before_grow index value this :
  wf this -> 0 <= index < _size this ->
  (full this = true -> _capacity this + 1 <= INT_MAX) ->
  let new_capacity :=
    if full this then _capacity this + 1 else _capacity this in
  exists block,
    insert_at T_default index value this
    = grow T_default (mkArray new_capacity (_size this + 1) (Some block)) /\
    Z.of_nat (length block) = new_capacity /\
    take (Z.to_nat (_size this + 1)) block
    = take (Z.to_nat index) (contents this)
        ++ value :: drop (Z.to_nat index) (contents this).
Proof.
  intros [Hinv Hlen] Hindex Hfits new_capacity. unfold inv in Hinv.
  destruct (insert_layout (Z.to_nat index) (Z.to_nat (_size this))
              (block_of this) (replicate (Z.to_nat new_capacity) T_default)
              value) as (Hlen3 & Hcont3).
  { lia. }
  { lia. }
  { rewrite length_replicate. unfold new_capacity, full.
    destruct (Z.eqb_spec (_size this) (_capacity this)); lia. }
  assert (0 <= new_capacity) as Hcap
      by (unfold new_capacity; destruct (full this); lia).
  eexists. split; [|split].
  - unfold insert_at, index_in_bounds. rewrite bind_get.
    destruct (Z.geb_spec index 0); [|lia].
    destruct (Z.ltb_spec index (_size this)); [|lia]. simpl.
    rewrite bind_get.
    assert (exists this1,
               block_of this1 = block_of this /\ _size this1 = _size this /\
               forall B (k : Z -> M B),
                 bind (if full this
                       then cap <- get _capacity ;
                            cap <- int_result (cap + 1) ;
                            put_capacity cap ;; ret cap
                       else get _capacity) k this
                 = k new_capacity this1) as (this1 & Hblock & Hsize & ->).
    { unfold new_capacity. revert Hfits. destruct (full this); intros Hfits.
      - eexists. split; [|split];
          [| |intros; run_steps;
              erewrite bind_Ok by (apply int_result_in; int_lia);
              run_steps; reflexivity];
          reflexivity.
      - exists this. auto. }
    assert (_size this < new_capacity) as Hroom.
    { unfold new_capacity, full.
      destruct (Z.eqb_spec (_size this) (_capacity this)); lia. }
    run_steps. rewrite Hsize. unfold new_.
    destruct (Z.ltb_spec new_capacity 0); [lia|]. run_steps.
    erewrite bind_Ok
      by (apply copy_prefix_spec; rewrite ?Hblock, ?length_replicate; lia).
    erewrite bind_Ok
      by (apply store_local_in;
          rewrite Hblock, length_app, length_take, length_drop,
            length_replicate; lia).
    erewrite bind_Ok
      by (apply copy_shifted_up_spec;
          rewrite ?Hblock, ?length_insert, ?length_app, ?length_take,
            ?length_drop, ?length_replicate; lia).
    run_steps. rewrite Hblock. simpl.
    replace (Z.to_nat (index + 1)) with (S (Z.to_nat index)) by lia.
    replace (Z.to_nat (_size this + 1 - (index + 1)))
      with (Z.to_nat (_size this) - Z.to_nat index)%nat by lia.
    replace (Z.to_nat (index + 1 - 1)) with (Z.to_nat index) by lia.
    reflexivity.
  - rewrite Hlen3, length_replicate. lia.
  - replace (Z.to_nat (_size this + 1)) with (S (Z.to_nat (_size this)))
      by lia.
    exact Hcont3.
Qed.

Lemma insert_at_wf index value this :
  wf this -> 0 <= index < _size this -> insert_at_fits this ->
  exists this',
    insert_at T_default index value this = Ok tt this' /\
    wf this' /\
    _capacity this'
    = (if full this then 2 * (_capacity this + 1)
       else if _size this + 1 =? _capacity this then 2 * _capacity this
            else _capacity this) /\
    _size this' = _size this + 1 /\
    contents this'
    = take (Z.to_nat index) (contents this)
        ++ value :: drop (Z.to_nat index) (contents this).
Proof.
  intros Hwf Hindex [Hfull Hfill].
  destruct (insert_at_before_grow index value this Hwf Hindex)
    as (block & Hrun & Hlen & Hcont).
  { intros Hf. unfold full in Hf. apply Z.eqb_eq in Hf.
    destruct Hwf as [Hinv _]. unfold inv in Hinv. specialize (Hfull Hf). lia. }
  destruct Hwf as [Hinv _]. unfold inv in Hinv. cbv zeta in Hrun, Hlen.
  set (new_capacity := if full this then _capacity this + 1
                       else _capacity this) in *.
  assert (_size this < new_capacity /\
          (if _size this + 1 =? new_capacity
           then if new_capacity =? 0 then 1 else new_capacity * 2
           else new_capacity)
          = (if full this then 2 * (_capacity this + 1)
             else if _size this + 1 =? _capacity this then 2 * _capacity this
                  else _capacity this)) as (Hroom & Hcap).
  { unfold new_capacity, full.
    destruct (Z.eqb_spec (_size this) (_capacity this));
      destruct (Z.eqb_spec (_size this + 1) (_capacity this + 1));
      destruct (Z.eqb_spec (_size this + 1) (_capacity this));
      destruct (Z.eqb_spec (_capacity this + 1) 0);
      destruct (Z.eqb_spec (_capacity this) 0); lia. }
  set (this1 := mkArray new_capacity (_size this + 1) (Some block)) in *.
  assert (wf this1) as Hwf1.
  { unfold wf, inv, this1, block_of. simpl. lia. }
  destruct (grow_wf this1 Hwf1) as (this' & Hgrow & Hwf' & Hc & Hs & Hcont').
  { unfold this1, new_capacity, full. simpl.
    destruct (Z.eqb_spec (_size this) (_capacity this));
      intros Hf; apply Z.eqb_eq in Hf; auto with lia. }
  exists this'. rewrite Hrun. repeat split; try apply Hwf'; try assumption.
  - rewrite Hc, <- Hcap. reflexivity.
  - rewrite Hcont'. unfold this1. rewrite contents_mk. exact Hcont.
Qed.

(** What a successful [insert_at] did before its last statement, whatever
    the object. *)
Lemma insert_at_Ok_inv index value this u this' :
  insert_at T_default index value this = Ok u this' ->
  0 <= index < _size this /\
  exists block,
    grow T_default
      (mkArray (if full this then _capacity this + 1 else _capacity this)
         (_size this + 1) (Some block))
    = Ok u this'.
Proof.
  unfold insert_at, index_in_bounds. rewrite bind_get.
  destruct (Z.geb_spec index 0); [|discriminate].
  destruct (Z.ltb_spec index (_size this)); [|discriminate]. simpl.
  rewrite bind_get. intros Hrun. split; [lia|].
  assert (exists this1,
             _size this1 = _size this /\
             bind (sz <- get _size ; ret sz) (fun _ => ret tt) this1
             = Ok tt this1 /\
             forall B (k : Z -> M B) y this'',
               bind (if full this
                     then cap <- get _capacity ;
                          cap <- int_result (cap + 1) ;
                          put_capacity cap ;; ret cap
                     else get _capacity) k this
               = Ok y this'' ->
               k (if full this then _capacity this + 1 else _capacity this)
                 this1
               = Ok y this'') as (this1 & Hsize & _ & Hstep).
  { destruct (full this).
    - exists (mkArray (_capacity this + 1) (_size this) (_array this)).
      split; [reflexivity|]. split; [reflexivity|].
      intros B k y this''. run_steps. intros Hk.
      apply bind_Ok_inv in Hk as (cap1 & s1 & Hcap1 & Hk).
      apply int_result_Ok_inv in Hcap1 as (-> & -> & _).
      revert Hk. run_steps. auto.
    - exists this. split; [reflexivity|]. split; [reflexivity|].
      intros B k y this''. run_steps. auto. }
  apply Hstep in Hrun. clear Hstep. revert Hrun. run_steps. rewrite Hsize.
  intros Hrun.
  apply bind_Ok_inv in Hrun as (dst0 & s0 & Hnew & Hrun).
  assert (s0 = this1) as ->.
  { unfold new_ in Hnew. destruct (_ <? 0); [discriminate|].
    unfold ret in Hnew. injection Hnew as _ <-. reflexivity. }
  apply bind_Ok_inv in Hrun as (dst1 & s1 & Hloop1 & Hrun).
  apply copy_loop_pure in Hloop1 as ->.
  apply bind_Ok_inv in Hrun as (dst2 & s2 & Hstore & Hrun).
  apply store_local_Ok_inv in Hstore as ->.
  apply bind_Ok_inv in Hrun as (dst3 & s3 & Hloop2 & Hrun).
  apply (copy_loop_pure (fun i => i - 1) (fun i => i)) in Hloop2 as ->.
  revert Hrun. run_steps. simpl. intros Hrun. exists dst3. exact Hrun.
Qed.

Lemma insert_at_keeps_inv index value this u this' :
  inv this -> insert_at T_default index value this = Ok u this' -> inv this'.
Proof.
  unfold inv. intros Hinv Hrun.
  apply insert_at_Ok_inv in Hrun as (Hindex & block & Hgrow).
  destruct (full this) eqn:Hfull; unfold full in Hfull;
    [apply Z.eqb_eq in Hfull | apply Z.eqb_neq in Hfull];
    apply grow_Ok_inv in Hgrow as [(Hfull1 & ->) | (Hfull1 & Hc & Hs)];
    unfold full in Hfull1; simpl in *;
    [apply Z.eqb_neq in Hfull1 | apply Z.eqb_eq in Hfull1
    |apply Z.eqb_neq in Hfull1 | apply Z.eqb_eq in Hfull1];
    try lia; rewrite Hc, Hs.
  - destruct (Z.eqb_spec (_capacity this + 1) 0); lia.
  - destruct (Z.eqb_spec (_capacity this) 0); lia.
Qed.

Lemma insert_at_full_capacity index value this u this' :
  full this = true ->
  insert_at T_default index value this = Ok u this' ->
  _capacity this' = 2 * (_capacity this + 1).
Proof.
  intros Hfull Hrun.
  apply insert_at_Ok_inv in Hrun as (Hindex & block & Hgrow).
  rewrite Hfull in Hgrow. unfold full in Hfull. apply Z.eqb_eq in Hfull.
  apply grow_Ok_inv in Hgrow as [(Hnot & _) | (_ & Hc & _)].
  - unfold full in Hnot. simpl in Hnot. apply Z.eqb_neq in Hnot. lia.
  - rewrite Hc. simpl. destruct (Z.eqb_spec (_capacity this + 1) 0); lia.
Qed.

Lemma insert_at_out_of_range index value this :
  ~ (0 <= index < _size this) ->
  insert_at T_default index value this
  = Throw (out_of_range "Index out of bounds") this.
Proof.
  intros H. unfold insert_at, index_in_bounds. rewrite bind_get.
  destruct (Z.geb_spec index 0); destruct (Z.ltb_spec index (_size this));
    simpl; try reflexivity; lia.
Qed.

(** ** [remove_at] *)

(** [for (i = lo; i < hi; ++i) dst[i - length] = _array[i];] *)
Lemma copy_shifted_down_spec lo hi len dst this :
  0 <= lo -> 0 <= lo - len ->
  (Z.to_nat lo + Z.to_nat (hi - lo) <= length (block_of this))%nat ->
  (Z.to_nat (lo - len) + Z.to_nat (hi - lo) <= length dst)%nat ->
  for_ lo hi (fun i dst => x <- load i ; store_local dst (i - len) x) dst this
  = Ok (take (Z.to_nat (lo - len)) dst
          ++ take (Z.to_nat (hi - lo)) (drop (Z.to_nat lo) (block_of this))
          ++ drop (Z.to_nat (lo - len) + Z.to_nat (hi - lo)) dst) this.
Proof.
  intros Hlo Hlen Hs Hd. unfold for_.
  pose proof (copy_loop_spec (fun i => i) (fun i => i - len) 0 (- len)
                (fun i => eq_sym (Z.add_0_r i)) (fun i => eq_refl)
                (Z.to_nat (hi - lo)) lo dst this) as H.
  cbv beta in H.
  replace (lo + - len) with (lo - len) in H by lia.
  rewrite Z.add_0_r in H. apply H; lia.
Qed.

(** The sequence with a run of [L] values taken out at a position. *)
Lemma remove_layout (a L m : nat) (src fresh : list T) :
  (a + L <= m)%nat -> (m <= length src)%nat -> (m <= length fresh)%nat ->
  let dst1 := take a src ++ drop a fresh in
  let dst2 := take a dst1 ++ take (m - (a + L)) (drop (a + L) src)
                ++ drop (a + (m - (a + L))) dst1 in
  length dst2 = length fresh /\
  take (m - L) dst2 = take a (take m src) ++ drop (a + L) (take m src).
Proof.
  intros HaL Hms Hmf dst1 dst2.
  assert (length dst1 = length fresh) as Hlen1.
  { unfold dst1. rewrite length_app, length_take, length_drop. lia. }
  assert (take a dst1 = take a src) as Hhead.
  { unfold dst1. rewrite take_app_length' by (rewrite length_take; lia).
    reflexivity. }
  split.
  - unfold dst2. rewrite !length_app, !length_take, !length_drop. lia.
  - unfold dst2. rewrite Hhead, app_assoc.
    rewrite take_app_length'
      by (rewrite !length_app, !length_take, length_drop; lia).
    rewrite take_take. replace (a `min` m)%nat with a by lia.
    rewrite (take_drop_commute src (m - (a + L)) (a + L)).
    replace (a + L + (m - (a + L)))%nat with m by lia. reflexivity.
Qed.

(** [remove_at] up to its last statement. *)
Lemma remove_at_before_shrink index len this :
  wf this -> _capacity this <= INT_MAX ->
  0 <= index < _size this -> 1 <= len ->
  index + (len - 1) < _size this ->
  exists block,
    remove_at T_default index len this
    = shrink T_default
        (mkArray (_capacity this) (_size this - len) (Some block)) /\
    Z.of_nat (length block) = _capacity this /\
    take (Z.to_nat (_size this - len)) block
    = take (Z.to_nat index) (contents this)
        ++ drop (Z.to_nat (index + len)) (contents this).
Proof.
  intros [Hinv Hlen] Hint Hindex Hpos Hend. unfold inv in Hinv.
  destruct (remove_layout (Z.to_nat index) (Z.to_nat len)
              (Z.to_nat (_size this)) (block_of this)
              (replicate (Z.to_nat (_capacity this)) T_default))
    as (Hlen2 & Hcont2).
  { lia. }
  { lia. }
  { rewrite length_replicate. lia. }
  eexists. split; [|split].
  - unfold remove_at, index_in_bounds. rewrite bind_get.
    destruct (Z.geb_spec index 0); [|lia].
    destruct (Z.ltb_spec index (_size this)); [|lia]. simpl.
    destruct (Z.ltb_spec len 0); [lia|].
    destruct (Z.eqb_spec len 0); [lia|].
    erewrite bind_Ok by (apply int_result_in; int_lia).
    rewrite bind_get.
    destruct (Z.geb_spec (index + (len - 1)) (_size this)); [lia|].
    rewrite bind_get. unfold new_.
    destruct (Z.ltb_spec (_capacity this) 0); [lia|]. run_steps.
    erewrite bind_Ok
      by (apply copy_prefix_spec; rewrite ?length_replicate; lia).
    erewrite bind_Ok
      by (apply copy_shifted_down_spec;
          rewrite ?length_app, ?length_take, ?length_drop,
            ?length_replicate; lia).
    run_steps. simpl.
    replace (Z.to_nat (index + (len - 1) + 1 - len)) with (Z.to_nat index)
      by lia.
    replace (Z.to_nat (_size this - (index + (len - 1) + 1)))
      with (Z.to_nat (_size this) - (Z.to_nat index + Z.to_nat len))%nat
      by lia.
    replace (Z.to_nat (index + (len - 1) + 1))
      with (Z.to_nat index + Z.to_nat len)%nat by lia.
    reflexivity.
  - rewrite Hlen2, length_replicate. lia.
  - replace (Z.to_nat (_size this - len))
      with (Z.to_nat (_size this) - Z.to_nat len)%nat by lia.
    replace (Z.to_nat (index + len))
      with (Z.to_nat index + Z.to_nat len)%nat by lia.
    exact Hcont2.
Qed.

Lemma remove_at_wf index len this :
  wf this -> _capacity this <= INT_MAX ->
  0 <= index < _size this -> 1 <= len ->
  index + (len - 1) < _size this ->
  exists this',
    remove_at T_default index len this = Ok tt this' /\
    wf this' /\
    _capacity this'
    = (if _size this - len <? Z.quot (_capacity this) 4
       then Z.quot (_capacity this) 2
       else _capacity this) /\
    _size this' = _size this - len /\
    contents this'
    = take (Z.to_nat index) (contents this)
        ++ drop (Z.to_nat (index + len)) (contents this).
Proof.
  intros Hwf Hint Hindex Hpos Hend.
  destruct (remove_at_before_shrink index len this Hwf Hint Hindex Hpos Hend)
    as (block & Hrun & Hlen & Hcont).
  destruct Hwf as [Hinv _]. unfold inv in Hinv.
  set (this1 := mkArray (_capacity this) (_size this - len) (Some block)) in *.
  assert (wf this1) as Hwf1.
  { unfold wf, inv, this1, block_of. simpl. lia. }
  destruct (shrink_wf this1 Hwf1) as (this' & Hshrink & Hwf' & Hc & Hs & Hcont').
  exists this'. rewrite Hrun. repeat split; try apply Hwf'; try assumption.
  rewrite Hcont'. unfold this1. rewrite contents_mk. exact Hcont.
Qed.

(** What a successful [remove_at] did before its last statement, whatever
    the object. *)
Lemma remove_at_Ok_inv index len this u this' :
  remove_at T_default index len this = Ok u this' ->
  0 <= index < _size this /\
  ((len = 0 /\ this' = this) \/
   (1 <= len /\ index + (len - 1) < _size this /\
    exists block,
      shrink T_default
        (mkArray (_capacity this) (_size this - len) (Some block))
      = Ok u this')).
Proof.
  unfold remove_at, index_in_bounds. rewrite bind_get.
  destruct (Z.geb_spec index 0); [|discriminate].
  destruct (Z.ltb_spec index (_size this)); [|discriminate]. simpl.
  destruct (Z.ltb_spec len 0); [discriminate|].
  destruct (Z.eqb_spec len 0).
  { unfold ret. intros [= _ <-]. split; [lia|]. left. auto. }
  intros Hrun. apply bind_Ok_inv in Hrun as (end_idx & s0 & Hsum & Hrun).
  apply int_result_Ok_inv in Hsum as (-> & -> & _).
  revert Hrun. rewrite bind_get.
  destruct (Z.geb_spec (index + (len - 1)) (_size this)); [discriminate|].
  rewrite bind_get. intros Hrun. split; [lia|]. right.
  split; [lia|]. split; [lia|].
  apply bind_Ok_inv in Hrun as (dst0 & s0 & Hnew & Hrun).
  assert (s0 = this) as ->.
  { unfold new_ in Hnew. destruct (_ <? 0); [discriminate|].
    unfold ret in Hnew. injection Hnew as _ <-. reflexivity. }
  apply bind_Ok_inv in Hrun as (dst1 & s1 & Hloop1 & Hrun).
  apply copy_loop_pure in Hloop1 as ->.
  apply bind_Ok_inv in Hrun as (dst2 & s2 & Hloop2 & Hrun).
  apply (copy_loop_pure (fun i => i) (fun i => i - len)) in Hloop2 as ->.
  revert Hrun. run_steps. simpl. intros Hrun. exists dst2. exact Hrun.
Qed.

Lemma remove_at_keeps_inv index len this u this' :
  inv this -> remove_at T_default index len this = Ok u this' -> inv this'.
Proof.
  unfold inv. intros Hinv Hrun.
  apply remove_at_Ok_inv in Hrun
      as (Hindex & [(_ & ->) | (Hpos & Hend & block & Hshrink)]);
    [exact Hinv|].
  apply shrink_Ok_inv in Hshrink as [-> | (Hlt & Hc & Hs)]; simpl in *.
  - lia.
  - rewrite Hc, Hs. quot_lia.
Qed.

Lemma remove_at_out_of_range index len this :
  ~ (0 <= index < _size this) ->
  remove_at T_default index len this
  = Throw (out_of_range "Index out of bounds") this.
Proof.
  intros H. unfold remove_at, index_in_bounds. rewrite bind_get.
  destruct (Z.geb_spec index 0); destruct (Z.ltb_spec index (_size this));
    simpl; try reflexivity; lia.
Qed.

(** ** [pop], [pop_back], [pop_front] *)

Lemma pop_empty this :
  empty this = true ->
  pop T_default this = Throw (runtime_error "Array is empty") this.
Proof. intros H. unfold pop. rewrite bind_get, H. reflexivity. Qed.

Lemma pop_back_empty this :
  empty this = true ->
  pop_back T_default this = Throw (out_of_range "Index out of bounds") this.
Proof.
  intros H. unfold pop_back. rewrite bind_get.
  apply remove_at_out_of_range. unfold empty in H. apply Z.eqb_eq in H. lia.
Qed.

Lemma pop_front_empty this :
  empty this = true ->
  pop_front T_default this = Throw (out_of_range "Index out of bounds") this.
Proof.
  intros H. unfold pop_front.
  apply remove_at_out_of_range. unfold empty in H. apply Z.eqb_eq in H. lia.
Qed.

Lemma pop_keeps_inv this u this' :
  inv this -> pop T_default this = Ok u this' -> inv this'.
Proof.
  unfold inv, pop. intros Hinv. rewrite bind_get.
  destruct (empty this); [discriminate|]. rewrite bind_get. intros Hrun.
  apply bind_Ok_inv in Hrun as (x & this1 & Hload & Hshrink).
  apply load_Ok_inv in Hload as (-> & _).
  apply shrink_Ok_inv in Hshrink as [-> | (Hlt & Hc & Hs)].
  - exact Hinv.
  - rewrite Hc, Hs. quot_lia.
Qed.

(** ** [resize], [clear], [reverse], [find], [remove] keep the invariant *)

Lemma resize_keeps_inv new_capacity this u this' :
  inv this -> resize T_default new_capacity this = Ok u this' -> inv this'.
Proof.
  unfold inv. intros Hinv Hrun.
  apply resize_Ok_inv in Hrun as (Hn & [(_ & ->) | (_ & Hc & Hs)]).
  - exact Hinv.
  - rewrite Hc, Hs. lia.
Qed.

Lemma clear_keeps_inv this u this' :
  inv this -> clear this = Ok u this' -> inv this'.
Proof.
  unfold inv. rewrite clear_spec. intros Hinv [= _ <-]. simpl. lia.
Qed.

Lemma reverse_Ok_inv this u this' :
  reverse this = Ok u this' ->
  _capacity this' = _capacity this /\ _size this' = _size this.
Proof.
  unfold reverse. rewrite bind_get. destruct (empty this).
  - unfold ret. intros [= _ <-]. auto.
  - rewrite bind_get. unfold for_.
    apply (for_loop_keeps
             (fun s => _capacity s = _capacity this /\ _size s = _size this));
      [|auto].
    intros i acc s acc' s' (Hc & Hs). rewrite bind_get. intros Hrun.
    apply bind_Ok_inv in Hrun as (x & s1 & Hx & Hrun).
    apply load_Ok_inv in Hx as (-> & _).
    apply bind_Ok_inv in Hrun as (y & s1 & Hy & Hrun).
    apply load_Ok_inv in Hy as (-> & _).
    apply bind_Ok_inv in Hrun as (u1 & s1 & Hstore1 & Hstore2).
    apply store_Ok_inv in Hstore1 as (Hc1 & Hs1).
    apply store_Ok_inv in Hstore2 as (Hc2 & Hs2).
    split; congruence.
Qed.

Context (T_eqb : T -> T -> bool).

Lemma find_loop_pure value rounds i this r this' :
  find_loop T_eqb rounds i value this = Ok r this' -> this' = this.
Proof.
  revert i. induction rounds as [|rounds IH]; intros i; simpl.
  - unfold ret. intros [= _ <-]. reflexivity.
  - intros Hrun. apply bind_Ok_inv in Hrun as (x & this1 & Hx & Hrun).
    apply load_Ok_inv in Hx as (-> & _).
    destruct (T_eqb x value).
    + unfold ret in Hrun. injection Hrun as _ <-. reflexivity.
    + eapply IH. exact Hrun.
Qed.

Lemma remove_keeps_inv value this u this' :
  inv this -> remove T_default T_eqb value this = Ok u this' -> inv this'.
Proof.
  intros Hinv. unfold remove, find. intros Hrun.
  apply bind_Ok_inv in Hrun as (found_at & this1 & Hfind & Hrun).
  rewrite bind_get in Hfind. apply find_loop_pure in Hfind as ->.
  destruct (negb (found_at =? -1)).
  - eapply remove_at_keeps_inv; eassumption.
  - unfold ret in Hrun. injection Hrun as _ <-. exact Hinv.
Qed.

Lemma construct_Ok_inv capacity u this :
  construct T_default capacity = Ok u this ->
  1 <= capacity /\
  this = mkArray capacity 0
           (Some (replicate (Z.to_nat capacity) T_default)).
Proof.
  unfold construct, set_capacity, set_size, is_valid_capacity, is_valid_size,
    new_.
  destruct (Z.geb_spec capacity 1); simpl; [|discriminate].
  run_steps. simpl. destruct (Z.ltb_spec capacity 0); [lia|]. run_steps.
  unfold put_array. simpl. intros [= _ <-]. split; [lia | reflexivity].
Qed.

Lemma run_keeps_inv (c : call) this this' :
  inv this -> run T_default T_eqb c this = Ok tt this' -> inv this'.
Proof.
  intros Hinv. destruct c; simpl.
  - apply push_Ok_inv; exact Hinv.
  - apply pop_keeps_inv; exact Hinv.
  - intros Hrun. apply bind_Ok_inv in Hrun as (r & this1 & Hrun & Hret).
    unfold ret in Hret. injection Hret as <-.
    eapply operator_index_Ok_inv; eassumption.
  - apply insert_at_keeps_inv; exact Hinv.
  - apply remove_at_keeps_inv; exact Hinv.
  - unfold pop_back. rewrite bind_get. apply remove_at_keeps_inv; exact Hinv.
  - apply remove_at_keeps_inv; exact Hinv.
  - apply remove_keeps_inv; exact Hinv.
  - apply resize_keeps_inv; exact Hinv.
  - intros Hrun. apply reverse_Ok_inv in Hrun as (Hc & Hs).
    unfold inv in *. lia.
  - apply clear_keeps_inv; exact Hinv.
Qed.

End Proofs.

(** Facts about the example objects are decided by evaluation. *)
Ltac by_evaluation :=
  unfold call_fits; simpl;
  unfold wf, inv, size, capacity, push_fits, insert_at_fits, INT_MAX, INT_MIN;
  simpl; first [reflexivity | lia].

(** * The statements of the specification *)

(** ** Positional insert: the accepted indices *)

(** C1, as the specification states it, fails: [insert_at] guards with
    [index_in_bounds], the test of the reads, so the append position
    [index == size] is rejected.  On [{1, 2}] the call [insert_at(2, 9)]
    throws [std::out_of_range]. *)
Lemma insert_at_rejects_index_size :
  0 <= 2 <= size two_of_four /\
  insert_at 0 2 9 two_of_four
  = Throw (out_of_range "Index out of bounds") two_of_four.
Proof. split; [by_evaluation | reflexivity]. Qed.

(** C1, amended: [insert_at(index, value)] accepts every index with
    [0 <= index < size]: on every well-formed array the call succeeds for such
    an index, as long as the capacity it grows to is a value of [int]; and
    for every index outside that range, [index == size] included, it fails
    with IndexOutOfRange and leaves the array as it was. *)
Theorem insert_at_accepts_read_indices
    {T} (T_default : T) (this : Array) (index : Z) (value : T) :
  (wf this -> insert_at_fits this -> 0 <= index < size this ->
   exists this', insert_at T_default index value this = Ok tt this') /\
  (~ (0 <= index < size this) ->
   insert_at T_default index value this
   = Throw (out_of_range "Index out of bounds") this /\
   error_kind (out_of_range "Index out of bounds") = Some IndexOutOfRange).
Proof.
  unfold size. split.
  - intros Hwf Hfits Hindex.
    destruct (insert_at_wf T_default index value this Hwf Hindex Hfits)
      as (this' & Hrun & _).
    exists this'. exact Hrun.
  - intros Hindex. split; [|reflexivity].
    apply insert_at_out_of_range. exact Hindex.
Qed.

Lemma insert_at_accepts_read_indices_witness :
  wf two_of_four /\ insert_at_fits two_of_four /\
  (0 <= 1 < size two_of_four /\
   exists this', insert_at 0 1 9 two_of_four = Ok tt this') /\
  (~ (0 <= 2 < size two_of_four) /\
   insert_at 0 2 9 two_of_four
   = Throw (out_of_range "Index out of bounds") two_of_four).
Proof.
  split; [by_evaluation|]. split; [by_evaluation|]. split.
  - split; [by_evaluation|].
    apply (insert_at_accepts_read_indices 0 two_of_four 1 9); by_evaluation.
  - split; [by_evaluation|].
    apply (insert_at_accepts_read_indices 0 two_of_four 2 9); by_evaluation.
Defined.

(** ** [pop] *)

(** C2 is what [pop] is meant to do, and [pop] does not do it: its decrement
    is written [--size], which names the accessor and not the data member
    [_size].  No statement of [pop] writes [_size]: after [push(7)] on the
    fresh array, [pop()] leaves the size at 1 and the element in place. *)
Theorem pop_leaves_size :
  size fresh = 0 /\
  push 0 7 fresh = Ok tt one_of_one /\
  pop 0 one_of_one = Ok tt one_of_one /\
  size one_of_one = 1.
Proof. repeat split. Qed.

(** ** [clear] *)

(** C3 is what [clear] is meant to do, and the code misses the capacity:
    [clear] writes [_array] and [_size] only.  After [clear()] on
    [{1, 2, 3, 4}] the capacity is still 4, with no block behind it. *)
Lemma clear_keeps_capacity :
  exists this',
    clear four_of_four = Ok tt this' /\
    capacity this' = 4 /\ capacity this' <> 0.
Proof.
  eexists. split; [reflexivity|]. unfold capacity. simpl. split; lia.
Qed.

(** What [clear] does as it is written, for every array state: [_array]
    becomes the null pointer, [_size] becomes 0 and [_capacity] is not
    written. *)
Theorem clear_releases_storage {T} (this : @Array T) :
  clear this = Ok tt (mkArray (capacity this) 0 None).
Proof. apply clear_spec. Qed.

(** ** The mutable [operator[]] *)

(** C4 is what the mutable [operator[]] is meant to do, and the code misses
    it: the fullness test comes before the test [index == _size], the only
    statement it matters to, and does not look at the index.  On the full
    array [{1, 2}] the access to index 0, an index below the size, throws
    "Array is full". *)
Lemma operator_index_full_rejects_inner_index :
  0 <= 0 < size two_of_two /\
  operator_index 0 two_of_two
  = Throw (runtime_error "Array is full") two_of_two.
Proof. split; [by_evaluation | reflexivity]. Qed.

(** The mutable [operator[]] as it is written, for an index with
    [0 <= index <= size]: it throws "Array is full" whenever
    [size == capacity], whatever the index; when the buffer of a well-formed
    array is not full, the access succeeds and leaves the size as it is for
    [index < size], and at [index == size] it succeeds and increments the
    size by 1. *)
Theorem operator_index_capacity_exceeded {T} (this : @Array T) (index : Z) :
  0 <= index <= size this ->
  (full this = true ->
   operator_index index this = Throw (runtime_error "Array is full") this /\
   error_kind (runtime_error "Array is full") = Some CapacityExceeded) /\
  (wf this -> full this = false -> index < size this ->
   operator_index index this = Ok index this) /\
  (wf this -> full this = false -> index = size this ->
   operator_index index this
   = Ok index (mkArray (capacity this) (size this + 1) (_array this))).
Proof.
  unfold size, capacity. intros Hindex. repeat split.
  - apply operator_index_full; assumption.
  - intros Hwf Hfull Hlt.
    apply operator_index_inside; [assumption | lia | assumption].
  - intros Hwf Hfull ->. apply operator_index_boundary; assumption.
Qed.

Lemma operator_index_capacity_exceeded_witness :
  (wf two_of_two /\ 0 <= 1 <= size two_of_two /\ full two_of_two = true /\
   operator_index 1 two_of_two
   = Throw (runtime_error "Array is full") two_of_two) /\
  (wf two_of_four /\ 0 <= 2 <= size two_of_four /\
   full two_of_four = false /\
   operator_index 2 two_of_four
   = Ok 2 (mkArray 4 3 (Some [1; 2; 0; 0]))).
Proof.
  split.
  - split; [by_evaluation|]. split; [by_evaluation|]. split; [reflexivity|].
    apply (operator_index_capacity_exceeded two_of_two 1); by_evaluation.
  - split; [by_evaluation|]. split; [by_evaluation|]. split; [reflexivity|].
    apply (operator_index_capacity_exceeded two_of_four 2); by_evaluation.
Defined.

(** ** The round trip of [insert_at] and [remove_at] *)

(** C5, as the specification states it, fails at [i == size]: the insertion
    itself is refused there, so there is nothing to undo.  On [{1, 2}],
    [insert_at(2, 9)] throws and no round trip through it exists. *)
Lemma insert_remove_roundtrip_fails_at_size :
  0 <= 2 <= size two_of_four /\
  ~ (exists this1 this2,
        insert_at 0 2 9 two_of_four = Ok tt this1 /\
        remove_at 0 2 1 this1 = Ok tt this2 /\
        contents this2 = contents two_of_four).
Proof.
  split; [by_evaluation|]. intros (this1 & this2 & Hins & _).
  discriminate Hins.
Qed.

(** C5, amended: for every well-formed array whose capacity, also after the
    growth of the insert, is a value of [int], and every index [i] that
    [insert_at] accepts ([0 <= i < size]), [insert_at(i, v)] followed by
    [remove_at(i, 1)] succeeds and restores the original element sequence
    (same size, same values in the same order). *)
Theorem insert_at_remove_at_roundtrip
    {T} (T_default : T) (this : Array) (index : Z) (value : T) :
  wf this -> capacity this <= INT_MAX -> insert_at_fits this ->
  0 <= index < size this ->
  exists this1 this2,
    insert_at T_default index value this = Ok tt this1 /\
    remove_at T_default index 1 this1 = Ok tt this2 /\
    size this2 = size this /\
    contents this2 = contents this.
Proof.
  unfold size, capacity. intros Hwf Hint Hfits Hindex.
  destruct (insert_at_wf T_default index value this Hwf Hindex Hfits)
    as (this1 & Hins & Hwf1 & Hc1 & Hs1 & Hcont1).
  assert (_capacity this1 <= INT_MAX) as Hint1.
  { rewrite Hc1. destruct Hfits as [Hfull Hfill]. unfold full.
    destruct (Z.eqb_spec (_size this) (_capacity this)); [auto|].
    destruct (Z.eqb_spec (_size this + 1) (_capacity this)); auto. }
  destruct (remove_at_wf T_default index 1 this1 Hwf1 Hint1)
    as (this2 & Hrem & _ & _ & Hs2 & Hcont2); [lia ..|].
  exists this1, this2. repeat split; [assumption | assumption | lia |].
  rewrite Hcont2, Hcont1.
  assert (Z.to_nat index <= length (contents this))%nat as Hlen.
  { destruct Hwf as [Hinv Hblock]. unfold inv in Hinv.
    unfold contents. rewrite length_take. lia. }
  rewrite take_app_length' by (rewrite length_take; lia).
  replace (Z.to_nat (index + 1)) with (S (Z.to_nat index)) by lia.
  rewrite (cons_middle value), app_assoc.
  rewrite drop_app_length'
    by (rewrite length_app, length_take; simpl; lia).
  apply take_drop.
Qed.

Lemma insert_at_remove_at_roundtrip_witness :
  wf four_of_four /\ capacity four_of_four <= INT_MAX /\
  insert_at_fits four_of_four /\ 0 <= 1 < size four_of_four /\
  exists this1 this2,
    insert_at 0 1 99 four_of_four = Ok tt this1 /\
    remove_at 0 1 1 this1 = Ok tt this2 /\
    size this2 = size four_of_four /\
    contents this2 = contents four_of_four.
Proof.
  split; [by_evaluation|]. split; [by_evaluation|].
  split; [by_evaluation|]. split; [by_evaluation|].
  apply (insert_at_remove_at_roundtrip 0 four_of_four 1 99); by_evaluation.
Defined.

(** ** Growth by [push] *)



(** ** [resize] *)

(** C7: [resize(new_capacity)] fails with InvalidArgument for every
    [new_capacity < 1]; it is a no-op when [new_capacity == capacity];
    otherwise, on a well-formed array, it moves to a block of [new_capacity]
    slots, keeps exactly the first [min(new_capacity, size)] elements in
    their order and sets the size to that count, so that shrinking below the
    size drops the trailing elements. *)
Theorem resize_contract
    {T} (T_default : T) (this : Array) (new_capacity : Z) :
  (new_capacity < 1 ->
   resize T_default new_capacity this
   = Throw (runtime_error "Invalid capacity argument") this /\
   error_kind (runtime_error "Invalid capacity argument")
   = Some InvalidArgument) /\
  (1 <= new_capacity -> new_capacity = capacity this ->
   resize T_default new_capacity this = Ok tt this) /\
  (1 <= new_capacity -> new_capacity <> capacity this -> wf this ->
   exists this',
     resize T_default new_capacity this = Ok tt this' /\
     capacity this' = new_capacity /\
     Z.of_nat (length (block_of this')) = new_capacity /\
     size this' = Z.min new_capacity (size this) /\
     contents this'
     = take (Z.to_nat (Z.min new_capacity (size this))) (contents this)).
Proof.
  unfold size, capacity. repeat split.
  - apply resize_invalid. assumption.
  - intros Hn ->. apply resize_same. assumption.
  - intros Hn Hne Hwf.
    destruct (resize_wf T_default new_capacity this Hwf Hn Hne)
      as (this' & Hrun & Hwf' & Hc & Hs & Hcont).
    exists this'. destruct Hwf' as [_ Hblock]. rewrite Hblock. auto.
Qed.

Lemma resize_contract_witness :
  (0 < 1 /\
   resize 0 0 four_of_four
   = Throw (runtime_error "Invalid capacity argument") four_of_four) /\
  (1 <= 4 /\ 4 = capacity four_of_four /\
   resize 0 4 four_of_four = Ok tt four_of_four) /\
  (1 <= 2 /\ 2 <> capacity four_of_four /\ wf four_of_four /\
   exists this',
     resize 0 2 four_of_four = Ok tt this' /\
     capacity this' = 2 /\ size this' = 2 /\ contents this' = [1; 2]).
Proof.
  split; [|split].
  - split; [lia|].
    apply (resize_contract 0 four_of_four 0). lia.
  - split; [lia|]. split; [by_evaluation|].
    apply (resize_contract 0 four_of_four 4); by_evaluation.
  - split; [lia|]. split; [by_evaluation|]. split; [by_evaluation|].
    destruct (resize_contract 0 four_of_four 2) as (_ & _ & Hrealloc).
    destruct Hrealloc as (this' & H1 & H2 & _ & H3 & H4);
      [by_evaluation ..|].
    exists this'. split; [exact H1|]. split; [exact H2|].
    split; [exact H3 | exact H4].
Defined.

(** ** The representation invariant *)

(** C8: [0 <= size <= capacity] holds after construction and is preserved by
    every successful public operation: [push], [pop], the mutable
    [operator[]], [insert_at], [remove_at], [pop_back], [pop_front],
    [remove], [resize], [reverse] and [clear]. *)
Theorem representation_invariant
    {T} (T_default : T) (T_eqb : T -> T -> bool) :
  (forall capacity this,
      construct T_default capacity = Ok tt this -> inv this) /\
  (forall (c : call) this this',
      inv this -> run T_default T_eqb c this = Ok tt this' -> inv this').
Proof.
  split.
  - intros capacity this Hrun.
    apply construct_Ok_inv in Hrun as (Hcap & ->). unfold inv. simpl. lia.
  - intros c this this'. apply run_keeps_inv.
Qed.

Lemma representation_invariant_witness :
  (construct 0 1 = Ok tt fresh /\ inv fresh) /\
  (inv four_of_four /\
   run 0 Z.eqb (RemoveAt 1 1) four_of_four
   = Ok tt (mkArray 4 3 (Some [1; 3; 4; 0])) /\
   inv (mkArray 4 3 (Some [1; 3; 4; 0]))).
Proof.
  split.
  - split; [reflexivity|].
    apply (proj1 (representation_invariant 0 Z.eqb) 1 fresh). reflexivity.
  - split; [by_evaluation|]. split; [reflexivity|].
    apply (proj2 (representation_invariant 0 Z.eqb) (RemoveAt 1 1)
             four_of_four).
    + by_evaluation.
    + reflexivity.
Defined.

(** ** [insert_at] on a full array *)

(** C9: on a full array ([size == capacity]) a successful [insert_at] ends
    with the doubling of [grow]: the capacity it leaves is exactly
    [2 * (old_capacity + 1)]; and on a well-formed full array for which that
    capacity is a value of [int] the call does succeed for every index
    [insert_at] accepts. *)
Theorem insert_at_full_doubles
    {T} (T_default : T) (this : Array) (index : Z) (value : T) :
  full this = true ->
  (forall this',
      insert_at T_default index value this = Ok tt this' ->
      capacity this' = 2 * (capacity this + 1)) /\
  (wf this -> 2 * (capacity this + 1) <= INT_MAX ->
   index_in_bounds this index = true ->
   exists this',
     insert_at T_default index value this = Ok tt this' /\
     capacity this' = 2 * (capacity this + 1)).
Proof.
  intros Hfull. unfold capacity. split.
  - intros this'. apply insert_at_full_capacity. exact Hfull.
  - intros Hwf Hfits Hindex.
    assert (0 <= index < _size this) as Hrange.
    { unfold index_in_bounds in Hindex.
      apply andb_prop in Hindex as (Hlo & Hhi).
      apply Z.geb_le in Hlo. apply Z.ltb_lt in Hhi. lia. }
    destruct (insert_at_wf T_default index value this Hwf Hrange)
      as (this' & Hrun & _ & Hc & _).
    { split; [auto|]. unfold full in Hfull. apply Z.eqb_eq in Hfull. lia. }
    exists this'. split; [exact Hrun|]. rewrite Hc, Hfull. reflexivity.
Qed.

Lemma insert_at_full_doubles_witness :
  full four_of_four = true /\ wf four_of_four /\
  2 * (capacity four_of_four + 1) <= INT_MAX /\
  index_in_bounds four_of_four 1 = true /\
  exists this',
    insert_at 0 1 99 four_of_four = Ok tt this' /\ capacity this' = 10.
Proof.
  split; [reflexivity|]. split; [by_evaluation|]. split; [by_evaluation|].
  split; [reflexivity|].
  apply (insert_at_full_doubles 0 four_of_four 1 99);
    first [reflexivity | by_evaluation].
Defined.

(** ** The removals on an empty array *)

(** C10: on an empty array [pop_back()] and [pop_front()] fail with
    IndexOutOfRange, thrown by the test of the start index in [remove_at],
    while [pop()] fails with Underflow. *)
Theorem pop_back_pop_front_on_empty {T} (T_default : T) (this : Array) :
  empty this = true ->
  pop_back T_default this
  = Throw (out_of_range "Index out of bounds") this /\
  pop_front T_default this
  = Throw (out_of_range "Index out of bounds") this /\
  remove_at T_default (size this - 1) 1 this
  = Throw (out_of_range "Index out of bounds") this /\
  remove_at T_default 0 1 this
  = Throw (out_of_range "Index out of bounds") this /\
  pop T_default this = Throw (runtime_error "Array is empty") this /\
  error_kind (out_of_range "Index out of bounds") = Some IndexOutOfRange /\
  error_kind (runtime_error "Array is empty") = Some Underflow.
Proof.
  intros Hempty.
  split; [apply pop_back_empty; exact Hempty|].
  split; [apply pop_front_empty; exact Hempty|].
  split; [apply pop_back_empty; exact Hempty|].
  split; [apply pop_front_empty; exact Hempty|].
  split; [apply pop_empty; exact Hempty|].
  split; reflexivity.
Qed.

Lemma pop_back_pop_front_on_empty_witness :
  empty fresh = true /\
  pop_back 0 fresh = Throw (out_of_range "Index out of bounds") fresh /\
  pop_front 0 fresh = Throw (out_of_range "Index out of bounds") fresh /\
  pop 0 fresh = Throw (runtime_error "Array is empty") fresh.
Proof.
  split; [reflexivity|].
  destruct (pop_back_pop_front_on_empty 0 fresh) as (H1 & H2 & _ & _ & H3 & _);
    [reflexivity|].
  split; [exact H1|]. split; [exact H2 | exact H3].
Defined.


(** * Further properties of the class *)

Section More.

Context {T : Type} (T_default : T).

Implicit Types (this : @Array T) (block src dst : list T) (value : T).

Ltac run_steps :=
  repeat first
    [ rewrite bind_get | rewrite bind_ret | rewrite bind_throw
    | rewrite bind_put_capacity | rewrite bind_put_size
    | rewrite bind_put_array | rewrite bind_clear | rewrite bind_bind ].

Ltac quot_lia := Z.to_euclidean_division_equations; lia.

Ltac int_lia := unfold INT_MAX, INT_MIN in *; lia.

Lemma bind_Throw {A B} (m : M A) (k : A -> M B) this e this' :
  m this = Throw e this' -> bind m k this = Throw e this'.
Proof. intros H. unfold bind. rewrite H. reflexivity. Qed.

Lemma length_contents this :
  wf this -> length (contents this) = Z.to_nat (_size this).
Proof.
  intros [Hinv Hlen]. unfold inv in Hinv. unfold contents.
  rewrite length_take. lia.
Qed.

(** ** The constructor *)

Lemma construct_invalid capacity :
  capacity < 1 ->
  construct T_default capacity = Throw (runtime_error "Invalid capacity") raw.
Proof.
  intros H. unfold construct, set_capacity, is_valid_capacity.
  destruct (Z.geb_spec capacity 1); [lia | reflexivity].
Qed.

Lemma construct_valid capacity :
  1 <= capacity ->
  construct T_default capacity
  = Ok tt (mkArray capacity 0
             (Some (replicate (Z.to_nat capacity) T_default))).
Proof.
  intros H. unfold construct, set_capacity, set_size, is_valid_capacity,
    is_valid_size, new_.
  destruct (Z.geb_spec capacity 1); [|lia]. simpl. run_steps. simpl.
  destruct (Z.ltb_spec capacity 0); [lia|]. run_steps. reflexivity.
Qed.

(** ** Reads *)

Lemma at_out_of_range index this :
  ~ (0 <= index < _size this) ->
  at_ index this = Throw (out_of_range "Index out of bounds") this.
Proof.
  intros H. unfold at_, index_in_bounds. rewrite bind_get.
  destruct (Z.geb_spec index 0); destruct (Z.ltb_spec index (_size this));
    simpl; try reflexivity; lia.
Qed.

Lemma at_wf index this :
  wf this -> 0 <= index < _size this ->
  exists x,
    at_ index this = Ok x this /\ contents this !! Z.to_nat index = Some x.
Proof.
  intros Hwf Hindex. pose proof Hwf as [Hinv _]. unfold inv in Hinv.
  destruct (load_wf this index Hwf) as (x & Hload & Hx); [lia|].
  exists x. split.
  - unfold at_, index_in_bounds. rewrite bind_get.
    destruct (Z.geb_spec index 0); [|lia].
    destruct (Z.ltb_spec index (_size this)); [|lia]. simpl. exact Hload.
  - unfold contents. rewrite lookup_take_lt by lia. exact Hx.
Qed.

(** ** A run of [push] *)

Lemma push_each_wf (values : list T) this :
  wf this ->
  2 * (_size this + Z.of_nat (length values)) <= INT_MAX ->
  exists this',
    push_each T_default values this = Ok tt this' /\
    wf this' /\
    _size this' = _size this + Z.of_nat (length values) /\
    contents this' = contents this ++ values.
Proof.
  revert this.
  induction values as [|value values IH]; intros this Hwf Hfits.
  - exists this. simpl. unfold ret. rewrite app_nil_r.
    repeat split; try apply Hwf. lia.
  - simpl length in Hfits.
    destruct (push_wf T_default value this Hwf)
      as (this1 & Hrun & Hwf1 & _ & Hs1 & Hcont1).
    { unfold full. intros Hfull. apply Z.eqb_eq in Hfull.
      destruct Hwf as [Hinv _]. unfold inv in Hinv. lia. }
    destruct (IH this1 Hwf1) as (this' & Hrun' & Hwf' & Hs' & Hcont');
      [lia|].
    simpl.
    exists this'. erewrite bind_Ok by exact Hrun.
    repeat split; try apply Hwf'; try assumption.
    + simpl length. lia.
    + rewrite Hcont', Hcont1, <- app_assoc. reflexivity.
Qed.

(** ** Assignment through the mutable [operator[]] *)

Lemma assign_at_inside index value this :
  wf this -> full this = false -> 0 <= index < _size this ->
  exists this',
    assign_at index value this = Ok tt this' /\
    wf this' /\
    _capacity this' = _capacity this /\
    _size this' = _size this /\
    contents this' = <[Z.to_nat index := value]> (contents this).
Proof.
  intros Hwf Hfull Hindex. pose proof Hwf as [Hinv Hlen]. unfold inv in Hinv.
  destruct (wf_block this Hwf) as (block & Harr & Hblock); [lia|].
  unfold assign_at.
  erewrite bind_Ok by (apply operator_index_inside; assumption).
  rewrite (store_Some this block) by (first [exact Harr | lia]).
  eexists. split; [reflexivity|].
  unfold wf, inv, contents, block_of. simpl. rewrite Harr. simpl.
  rewrite length_insert. repeat split; try lia.
  rewrite take_insert_lt by lia. reflexivity.
Qed.

Lemma assign_at_boundary value this :
  wf this -> full this = false ->
  assign_at (_size this) value this = push T_default value this.
Proof.
  intros Hwf Hfull. unfold assign_at, push.
  erewrite bind_Ok by (apply operator_index_boundary; assumption).
  rewrite bind_get, Hfull. run_steps. unfold store. run_steps. reflexivity.
Qed.

(** ** [reverse] *)

Lemma rev_lookup (l : list T) (i : nat) :
  (i < length l)%nat -> rev l !! i = l !! (length l - S i)%nat.
Proof. intros H. rewrite rev_alt. apply reverse_lookup. exact H. Qed.

(** One round of the loop of [reverse]: the slots [i] and [_size - 1 - i]
    exchange their values. *)
Lemma reverse_round cap n block i x y :
  0 <= i -> i <= n - 1 - i -> n <= Z.of_nat (length block) ->
  block !! Z.to_nat i = Some x ->
  block !! Z.to_nat (n - 1 - i) = Some y ->
  (sz <- get _size ;
   x <- load i ;
   y <- load (sz - 1 - i) ;
   store i y ;;
   store (sz - 1 - i) x) (mkArray cap n (Some block))
  = Ok tt (mkArray cap n
             (Some (<[Z.to_nat (n - 1 - i) := x]>
                      (<[Z.to_nat i := y]> block)))).
Proof.
  intros Hi Hle Hn Hx Hy. rewrite bind_get. simpl.
  erewrite bind_Ok by (eapply load_Some; simpl; eauto).
  erewrite bind_Ok by (eapply load_Some; simpl; eauto; lia).
  erewrite bind_Ok
    by (apply (store_Some _ block); simpl; first [reflexivity | lia]).
  simpl.
  rewrite (store_Some _ (<[Z.to_nat i := y]> block))
    by (simpl; first [reflexivity | rewrite length_insert; lia]).
  reflexivity.
Qed.

(** After [k] rounds the first [k] and the last [k] of the [n] elements are
    mirrored and the other slots are as they were. *)
Lemma reverse_loop cap n block :
  n <= Z.of_nat (length block) ->
  forall (rounds : nat) k block1,
    0 <= k -> 2 * (k + Z.of_nat rounds) <= n + 1 ->
    length block1 = length block ->
    (forall j : nat,
        block1 !! j
        = if decide (Z.of_nat j < k \/ n - 1 - k < Z.of_nat j < n)
          then block !! Z.to_nat (n - 1 - Z.of_nat j)
          else block !! j) ->
    exists block2,
      for_loop rounds k
        (fun i _ =>
           sz <- get _size ;
           x <- load i ;
           y <- load (sz - 1 - i) ;
           store i y ;;
           store (sz - 1 - i) x)
        tt (mkArray cap n (Some block1))
      = Ok tt (mkArray cap n (Some block2)) /\
      length block2 = length block /\
      (forall j : nat,
          block2 !! j
          = if decide (Z.of_nat j < k + Z.of_nat rounds \/
                       n - 1 - (k + Z.of_nat rounds) < Z.of_nat j < n)
            then block !! Z.to_nat (n - 1 - Z.of_nat j)
            else block !! j).
Proof.
  intros Hn rounds.
  induction rounds as [|rounds IH]; intros k block1 Hk Hbound Hlen Hmirror.
  - exists block1. simpl. split; [reflexivity|]. split; [exact Hlen|].
    intros j. rewrite Hmirror. rewrite Z.add_0_r. reflexivity.
  - simpl.
    destruct (lookup_lt_is_Some_2 block1 (Z.to_nat k)) as [x Hx]; [lia|].
    destruct (lookup_lt_is_Some_2 block1 (Z.to_nat (n - 1 - k))) as [y Hy];
      [lia|].
    erewrite bind_Ok
      by (apply (reverse_round cap n block1 k x y); first [assumption | lia]).
    destruct (IH (k + 1)
                (<[Z.to_nat (n - 1 - k) := x]> (<[Z.to_nat k := y]> block1)))
      as (block2 & Hrun & Hlen2 & Hmirror2).
    + lia.
    + lia.
    + rewrite !length_insert. exact Hlen.
    + intros j. rewrite !list_lookup_insert, !length_insert.
      pose proof (Hmirror (Z.to_nat k)) as Hxk. rewrite Hx in Hxk.
      pose proof (Hmirror (Z.to_nat (n - 1 - k))) as Hyk. rewrite Hy in Hyk.
      repeat case_decide; try lia.
      * rewrite Hxk. f_equal. lia.
      * rewrite Hyk. f_equal. lia.
      * rewrite Hmirror. repeat case_decide; try lia. reflexivity.
      * rewrite Hmirror. repeat case_decide; try lia. reflexivity.
    + exists block2. split; [exact Hrun|]. split; [exact Hlen2|].
      intros j. rewrite Hmirror2.
      replace (k + 1 + Z.of_nat rounds) with (k + Z.of_nat (S rounds)) by lia.
      reflexivity.
Qed.

Lemma reverse_wf this :
  wf this ->
  exists this',
    reverse this = Ok tt this' /\
    wf this' /\
    _capacity this' = _capacity this /\
    _size this' = _size this /\
    contents this' = rev (contents this).
Proof.
  intros Hwf. pose proof Hwf as [Hinv Hlen]. unfold inv in Hinv.
  unfold reverse. rewrite bind_get. unfold empty.
  destruct (Z.eqb_spec (_size this) 0) as [Hzero|Hpos].
  - exists this. unfold contents. rewrite Hzero. simpl. auto.
  - rewrite bind_get.
    destruct (wf_block this Hwf) as (block & Harr & Hblock); [lia|].
    destruct this as [cap n arr]. simpl in *. subst arr.
    unfold block_of in Hlen. simpl in Hlen. unfold for_.
    destruct (reverse_loop cap n block) with
      (rounds := Z.to_nat (Z.quot (n - 1) 2 + 1 - 0)) (k := 0)
      (block1 := block) as (block2 & Hrun & Hlen2 & Hmirror).
    + lia.
    + lia.
    + quot_lia.
    + reflexivity.
    + intros j. case_decide; [|reflexivity].
      destruct H as [H|H]; [lia|]. quot_lia.
    + exists (mkArray cap n (Some block2)). split; [exact Hrun|].
      unfold wf, inv, contents, block_of. simpl.
      repeat split; try lia.
      apply list_eq. intros j.
      destruct (decide (j < Z.to_nat n)%nat) as [Hj|Hj].
      * rewrite rev_lookup by (rewrite length_take; lia).
        rewrite length_take, !lookup_take_lt by lia.
        rewrite Hmirror. case_decide as Hc.
        -- f_equal. lia.
        -- exfalso. apply Hc. quot_lia.
      * rewrite !(proj2 (lookup_ge_None _ _)); [reflexivity | |].
        -- rewrite length_rev, length_take. lia.
        -- rewrite length_take. lia.
Qed.

(** ** [remove_at]: the guards after the index test *)

Lemma remove_at_invalid_length index len this :
  0 <= index < _size this -> len < 0 ->
  remove_at T_default index len this
  = Throw (runtime_error "Invalid length") this.
Proof.
  intros Hindex Hlen. unfold remove_at, index_in_bounds. rewrite bind_get.
  destruct (Z.geb_spec index 0); [|lia].
  destruct (Z.ltb_spec index (_size this)); [|lia]. simpl.
  destruct (Z.ltb_spec len 0); [reflexivity | lia].
Qed.

Lemma remove_at_zero_length index this :
  0 <= index < _size this ->
  remove_at T_default index 0 this = Ok tt this.
Proof.
  intros Hindex. unfold remove_at, index_in_bounds. rewrite bind_get.
  destruct (Z.geb_spec index 0); [|lia].
  destruct (Z.ltb_spec index (_size this)); [|lia]. reflexivity.
Qed.

Lemma remove_at_length_out_of_bounds index len this :
  0 <= index < _size this -> 1 <= len -> _size this <= index + (len - 1) ->
  index + (len - 1) <= INT_MAX ->
  remove_at T_default index len this
  = Throw (out_of_range "Length is out of bounds") this.
Proof.
  intros Hindex Hlen Hend Hint. unfold remove_at, index_in_bounds.
  rewrite bind_get.
  destruct (Z.geb_spec index 0); [|lia].
  destruct (Z.ltb_spec index (_size this)); [|lia]. simpl.
  destruct (Z.ltb_spec len 0); [lia|].
  destruct (Z.eqb_spec len 0); [lia|].
  erewrite bind_Ok by (apply int_result_in; int_lia). rewrite bind_get.
  destruct (Z.geb_spec (index + (len - 1)) (_size this)); [reflexivity | lia].
Qed.

(** The sum [index + (length - 1)] outside the range of [int]. *)
Lemma remove_at_overflow index len this :
  0 <= index < _size this -> 1 <= len -> INT_MAX < index + (len - 1) ->
  remove_at T_default index len this = Undefined.
Proof.
  intros Hindex Hlen Hover. unfold remove_at, index_in_bounds.
  rewrite bind_get.
  destruct (Z.geb_spec index 0); [|lia].
  destruct (Z.ltb_spec index (_size this)); [|lia]. simpl.
  destruct (Z.ltb_spec len 0); [lia|].
  destruct (Z.eqb_spec len 0); [lia|].
  unfold bind at 1. rewrite int_result_out by lia. reflexivity.
Qed.

(** ** [pop_back], [pop_front] on a non-empty array *)

Lemma pop_back_wf this :
  wf this -> _capacity this <= INT_MAX -> 1 <= _size this ->
  exists this',
    pop_back T_default this = Ok tt this' /\
    wf this' /\
    _capacity this'
    = (if _size this - 1 <? Z.quot (_capacity this) 4
       then Z.quot (_capacity this) 2
       else _capacity this) /\
    _size this' = _size this - 1 /\
    contents this' = take (Z.to_nat (_size this - 1)) (contents this).
Proof.
  intros Hwf Hint Hsize.
  destruct (remove_at_wf T_default (_size this - 1) 1 this Hwf Hint)
    as (this' & Hrun & Hwf' & Hc & Hs & Hcont); [lia ..|].
  exists this'. unfold pop_back. rewrite bind_get.
  repeat split; try apply Hwf'; try assumption.
  rewrite Hcont, (drop_ge (contents this))
    by (rewrite length_contents by exact Hwf; lia).
  apply app_nil_r.
Qed.

Lemma pop_front_wf this :
  wf this -> _capacity this <= INT_MAX -> 1 <= _size this ->
  exists this',
    pop_front T_default this = Ok tt this' /\
    wf this' /\
    _capacity this'
    = (if _size this - 1 <? Z.quot (_capacity this) 4
       then Z.quot (_capacity this) 2
       else _capacity this) /\
    _size this' = _size this - 1 /\
    contents this' = drop 1 (contents this).
Proof.
  intros Hwf Hint Hsize.
  destruct (remove_at_wf T_default 0 1 this Hwf Hint)
    as (this' & Hrun & Hwf' & Hc & Hs & Hcont); [lia ..|].
  exists this'. unfold pop_front.
  repeat split; try apply Hwf'; try assumption.
Qed.

(** ** [pop] as it is written *)

Lemma pop_wf this :
  wf this -> 1 <= _size this ->
  exists this',
    pop T_default this = Ok tt this' /\
    wf this' /\
    _capacity this'
    = (if _size this <? Z.quot (_capacity this) 4
       then Z.quot (_capacity this) 2
       else _capacity this) /\
    _size this' = _size this /\
    contents this' = contents this.
Proof.
  intros Hwf Hsize. pose proof Hwf as [Hinv _]. unfold inv in Hinv.
  destruct (load_wf this (_size this - 1) Hwf) as (x & Hload & _); [lia|].
  destruct (shrink_wf T_default this Hwf) as (this' & Hrun & Hrest).
  exists this'. split; [|exact Hrest].
  unfold pop, empty. rewrite bind_get.
  destruct (Z.eqb_spec (_size this) 0); [lia|]. rewrite bind_get.
  erewrite bind_Ok by exact Hload. exact Hrun.
Qed.

(** ** [find], [remove] *)

Context (T_eqb : T -> T -> bool).

Lemma find_loop_spec value this :
  forall (rounds : nat) i,
    0 <= i ->
    (Z.to_nat i + rounds <= length (block_of this))%nat ->
    exists r,
      find_loop T_eqb rounds i value this = Ok r this /\
      ((r = -1 /\
        forall (j : nat) y,
          (Z.to_nat i <= j < Z.to_nat i + rounds)%nat ->
          block_of this !! j = Some y -> T_eqb y value = false) \/
       (i <= r < i + Z.of_nat rounds /\
        (exists x,
            block_of this !! Z.to_nat r = Some x /\ T_eqb x value = true) /\
        forall (j : nat) y,
          (Z.to_nat i <= j < Z.to_nat r)%nat ->
          block_of this !! j = Some y -> T_eqb y value = false)).
Proof.
  intros rounds. induction rounds as [|rounds IH]; intros i Hi Hlen; simpl.
  - exists (-1). split; [reflexivity|]. left. split; [reflexivity|].
    intros j y Hj. lia.
  - destruct (_array this) as [block|] eqn:Harr;
      unfold block_of in *; rewrite Harr in *; simpl in *; [|lia].
    destruct (lookup_lt_is_Some_2 block (Z.to_nat i)) as [x Hx]; [lia|].
    erewrite bind_Ok by (eapply load_Some; eauto).
    destruct (T_eqb x value) eqn:Heq.
    + exists i. split; [reflexivity|]. right. split; [lia|].
      split; [eauto|]. intros j y Hj. lia.
    + destruct (IH (i + 1)) as (r & Hrun & Hr); [lia | lia |].
      exists r. split; [exact Hrun|].
      destruct Hr as [(-> & Hnone) | (Hrange & Hfound & Hbefore)].
      * left. split; [reflexivity|]. intros j y Hj Hy.
        destruct (decide (j = Z.to_nat i)) as [->|Hne].
        -- congruence.
        -- apply (Hnone j y); [lia | exact Hy].
      * right. split; [lia|]. split; [exact Hfound|]. intros j y Hj Hy.
        destruct (decide (j = Z.to_nat i)) as [->|Hne].
        -- congruence.
        -- apply (Hbefore j y); [lia | exact Hy].
Qed.

Lemma find_wf value this :
  wf this ->
  exists r,
    find T_eqb value this = Ok r this /\
    ((r = -1 /\
      forall (j : nat) y,
        contents this !! j = Some y -> T_eqb y value = false) \/
     (0 <= r < _size this /\
      (exists x,
          contents this !! Z.to_nat r = Some x /\ T_eqb x value = true) /\
      forall (j : nat) y,
        (j < Z.to_nat r)%nat ->
        contents this !! j = Some y -> T_eqb y value = false)).
Proof.
  intros [Hinv Hlen]. unfold inv in Hinv. unfold find. rewrite bind_get.
  destruct (find_loop_spec value this (Z.to_nat (_size this - 0)) 0)
    as (r & Hrun & Hr); [lia | lia |].
  exists r. split; [exact Hrun|]. unfold contents.
  destruct Hr as [(-> & Hnone) | (Hrange & (x & Hx & Heq) & Hbefore)].
  - left. split; [reflexivity|]. intros j y Hy.
    apply lookup_take_Some in Hy as (Hy & Hj).
    apply (Hnone j y); [lia | exact Hy].
  - right. split; [lia|]. split.
    + exists x. rewrite lookup_take_lt by lia. auto.
    + intros j y Hj Hy. apply lookup_take_Some in Hy as (Hy & _).
      apply (Hbefore j y); [lia | exact Hy].
Qed.

Lemma remove_wf value this :
  wf this -> _capacity this <= INT_MAX ->
  exists this',
    remove T_default T_eqb value this = Ok tt this' /\
    wf this' /\
    (((forall (j : nat) y,
          contents this !! j = Some y -> T_eqb y value = false) /\
      this' = this) \/
     (exists r x,
         0 <= r < _size this /\
         contents this !! Z.to_nat r = Some x /\ T_eqb x value = true /\
         (forall (j : nat) y,
             (j < Z.to_nat r)%nat ->
             contents this !! j = Some y -> T_eqb y value = false) /\
         _capacity this'
         = (if _size this - 1 <? Z.quot (_capacity this) 4
            then Z.quot (_capacity this) 2
            else _capacity this) /\
         _size this' = _size this - 1 /\
         contents this'
         = take (Z.to_nat r) (contents this)
             ++ drop (Z.to_nat (r + 1)) (contents this))).
Proof.
  intros Hwf Hint.
  destruct (find_wf value this Hwf) as (r & Hfind & Hr).
  unfold remove. erewrite bind_Ok by exact Hfind.
  destruct Hr as [(-> & Hnone) | (Hrange & (x & Hx & Heq) & Hbefore)].
  - exists this. simpl. split; [reflexivity|]. split; [exact Hwf|]. left. auto.
  - destruct (Z.eqb_spec r (-1)); [lia|]. simpl.
    destruct (remove_at_wf T_default r 1 this Hwf Hint)
      as (this' & Hrun & Hwf' & Hc & Hs & Hcont); [lia ..|].
    exists this'. split; [exact Hrun|]. split; [exact Hwf'|]. right.
    exists r, x. auto 10.
Qed.

(** ** Every public operation on a well-formed array *)

(** On a well-formed array with a block, an operation other than [clear]
    whose sums stay in the range of [int] either returns normally and leaves
    such an array, or throws and leaves the array as it was. *)
Lemma run_wf_cases (c : call) this :
  wf this -> 1 <= _capacity this <= INT_MAX -> c <> Clear ->
  call_fits c this ->
  (exists this',
      run T_default T_eqb c this = Ok tt this' /\
      wf this' /\ 1 <= _capacity this') \/
  (exists e, run T_default T_eqb c this = Throw e this).
Proof.
  intros Hwf [Hcap Hint] Hc Hfits.
  pose proof Hwf as [Hinv Hlen]. unfold inv in Hinv.
  destruct c as [value | | index | index value | index len | | | value
                | new_capacity | | ]; simpl in *.
  - destruct (push_wf T_default value this Hwf)
      as (this' & Hrun & Hwf' & Hc' & _).
    { unfold full. intros Hfull. apply Z.eqb_eq in Hfull. auto. }
    left. exists this'. split; [exact Hrun|]. split; [exact Hwf'|].
    rewrite Hc'. destruct (full this);
      destruct (Z.eqb_spec (_capacity this) 0); lia.
  - destruct (Z.eq_dec (_size this) 0) as [Hzero|Hpos].
    + right. eexists. apply pop_empty. unfold empty. rewrite Hzero.
      reflexivity.
    + destruct (pop_wf this Hwf) as (this' & Hrun & Hwf' & Hc' & _); [lia|].
      left. exists this'. split; [exact Hrun|]. split; [exact Hwf'|].
      rewrite Hc'. destruct (Z.ltb_spec (_size this) (Z.quot (_capacity this) 4));
        quot_lia.
  - destruct (decide (0 <= index <= _size this)) as [Hindex|Hindex].
    + destruct (full this) eqn:Hfull.
      * right. eexists. apply bind_Throw.
        apply operator_index_full; assumption.
      * left. destruct (decide (index = _size this)) as [->|Hne].
        -- eexists. erewrite bind_Ok
             by (apply operator_index_boundary; assumption).
           split; [reflexivity|]. unfold full in Hfull.
           apply Z.eqb_neq in Hfull.
           unfold wf, inv, block_of. simpl. fold (block_of this). lia.
        -- exists this. erewrite bind_Ok
             by (apply operator_index_inside; first [assumption | lia]).
           auto.
    + right. eexists. apply bind_Throw.
      apply operator_index_out_of_range. exact Hindex.
  - destruct (decide (0 <= index < _size this)) as [Hindex|Hindex].
    + destruct (insert_at_wf T_default index value this Hwf Hindex Hfits)
        as (this' & Hrun & Hwf' & Hc' & _).
      left. exists this'. split; [exact Hrun|]. split; [exact Hwf'|].
      rewrite Hc'. destruct (full this);
        destruct (Z.eqb_spec (_size this + 1) (_capacity this)); lia.
    + right. eexists. apply insert_at_out_of_range. exact Hindex.
  - destruct (decide (0 <= index < _size this)) as [Hindex|Hindex];
      [|right; eexists; apply remove_at_out_of_range; exact Hindex].
    destruct (Z.lt_trichotomy len 0) as [Hneg | [-> | Hpos]].
    + right. eexists. apply remove_at_invalid_length; assumption.
    + left. exists this. split; [apply remove_at_zero_length; exact Hindex|].
      auto.
    + destruct (decide (index + (len - 1) < _size this)) as [Hend|Hend].
      * destruct (remove_at_wf T_default index len this Hwf Hint)
          as (this' & Hrun & Hwf' & Hc' & _); [lia ..|].
        left. exists this'. split; [exact Hrun|]. split; [exact Hwf'|].
        rewrite Hc'.
        destruct (Z.ltb_spec (_size this - len) (Z.quot (_capacity this) 4));
          quot_lia.
      * right. eexists. apply remove_at_length_out_of_bounds; lia.
  - destruct (Z.eq_dec (_size this) 0) as [Hzero|Hpos].
    + right. eexists. apply pop_back_empty. unfold empty. rewrite Hzero.
      reflexivity.
    + destruct (pop_back_wf this Hwf Hint)
        as (this' & Hrun & Hwf' & Hc' & _); [lia|].
      left. exists this'. split; [exact Hrun|]. split; [exact Hwf'|].
      rewrite Hc'.
      destruct (Z.ltb_spec (_size this - 1) (Z.quot (_capacity this) 4));
        quot_lia.
  - destruct (Z.eq_dec (_size this) 0) as [Hzero|Hpos].
    + right. eexists. apply pop_front_empty. unfold empty. rewrite Hzero.
      reflexivity.
    + destruct (pop_front_wf this Hwf Hint)
        as (this' & Hrun & Hwf' & Hc' & _); [lia|].
      left. exists this'. split; [exact Hrun|]. split; [exact Hwf'|].
      rewrite Hc'.
      destruct (Z.ltb_spec (_size this - 1) (Z.quot (_capacity this) 4));
        quot_lia.
  - destruct (remove_wf value this Hwf Hint)
      as (this' & Hrun & Hwf' & Hr).
    left. exists this'. split; [exact Hrun|]. split; [exact Hwf'|].
    destruct Hr as [(_ & ->) | (r & x & Hrange & _ & _ & _ & Hc' & _)];
      [exact Hcap|].
    rewrite Hc'.
    destruct (Z.ltb_spec (_size this - 1) (Z.quot (_capacity this) 4));
      quot_lia.
  - destruct (Z.lt_ge_cases new_capacity 1) as [Hbad|Hgood].
    + right. eexists. apply resize_invalid. exact Hbad.
    + left. destruct (Z.eq_dec new_capacity (_capacity this)) as [->|Hne].
      * exists this. split; [apply resize_same; exact Hcap|]. auto.
      * destruct (resize_wf T_default new_capacity this Hwf Hgood Hne)
          as (this' & Hrun & Hwf' & Hc' & _).
        exists this'. split; [exact Hrun|]. split; [exact Hwf'|]. lia.
  - destruct (reverse_wf this Hwf) as (this' & Hrun & Hwf' & Hc' & _).
    left. exists this'. split; [exact Hrun|]. split; [exact Hwf'|]. lia.
  - congruence.
Qed.

(** ** Beyond the range of [int] *)

Lemma grow_overflow this :
  full this = true -> _capacity this <> 0 -> INT_MAX < 2 * _capacity this ->
  grow T_default this = Undefined.
Proof.
  intros Hfull Hcap Hover. unfold grow. rewrite bind_get, Hfull, bind_get.
  destruct (Z.eqb_spec (_capacity this) 0); [contradiction|].
  unfold bind at 1. rewrite int_result_out by lia. reflexivity.
Qed.

(** [push] on a full array whose doubled capacity is not a value of [int]. *)
Lemma push_overflow value this :
  full this = true -> _capacity this <> 0 -> INT_MAX < 2 * _capacity this ->
  push T_default value this = Undefined.
Proof.
  intros Hfull Hcap Hover. unfold push. rewrite bind_get, Hfull.
  unfold bind at 1. rewrite grow_overflow by assumption. reflexivity.
Qed.

(** [insert_at] on a full array whose capacity cannot grow to
    [2 * (capacity + 1)] within [int]. *)
Lemma insert_at_overflow index value this :
  wf this -> 0 <= index < _size this -> full this = true ->
  INT_MAX < 2 * (_capacity this + 1) ->
  insert_at T_default index value this = Undefined.
Proof.
  intros Hwf Hindex Hfull Hover.
  pose proof Hwf as [Hinv _]. unfold inv in Hinv.
  destruct (Z.le_gt_cases (_capacity this + 1) INT_MAX) as [Hfit|Hout].
  - destruct (insert_at_before_grow T_default index value this Hwf Hindex)
      as (block & Hrun & _); [auto|].
    rewrite Hrun, Hfull. apply grow_overflow; simpl; try lia.
    unfold full in *. simpl. apply Z.eqb_eq in Hfull. apply Z.eqb_eq. lia.
  - unfold insert_at, index_in_bounds. rewrite bind_get.
    destruct (Z.geb_spec index 0); [|lia].
    destruct (Z.ltb_spec index (_size this)); [|lia]. simpl.
    rewrite bind_get, Hfull. run_steps.
    unfold bind at 1. rewrite int_result_out by lia. reflexivity.
Qed.

Lemma call_is_clear (c : @call T) : c = Clear \/ c <> Clear.
Proof. destruct c; first [left; reflexivity | right; discriminate]. Qed.

(** ** After [clear] *)

Lemma push_after_clear value this :
  1 <= _capacity this ->
  (clear ;; push T_default value) this = Undefined.
Proof.
  intros Hcap. rewrite bind_clear. unfold push, full. rewrite bind_get.
  cbn [_size _capacity _array].
  destruct (Z.eqb_spec 0 (_capacity this)); [lia|]. reflexivity.
Qed.

Lemma assign_after_clear value this :
  1 <= _capacity this ->
  (clear ;; assign_at 0 value) this = Undefined.
Proof.
  intros Hcap. rewrite bind_clear.
  unfold assign_at, operator_index, setter_index_in_bounds, full.
  rewrite bind_bind, bind_get. cbn [_size _capacity _array].
  change ((0 >=? 0) && (0 <=? 0)) with true. cbn [negb].
  rewrite bind_bind, bind_get. cbn [_size _capacity _array].
  destruct (Z.eqb_spec 0 (_capacity this)); [lia|]. reflexivity.
Qed.

Lemma resize_after_clear new_capacity this :
  1 <= new_capacity -> new_capacity <> _capacity this ->
  (clear ;; resize T_default new_capacity) this
  = Ok tt (mkArray new_capacity 0
             (Some (replicate (Z.to_nat new_capacity) T_default))).
Proof.
  intros Hn Hne. rewrite bind_clear.
  rewrite resize_realloc; simpl; try lia.
  replace (Z.min new_capacity 0) with 0 by lia. simpl.
  rewrite Z.sub_0_r. reflexivity.
Qed.

End More.

(** * Further statements *)

(** ** Construction *)

(** X1: the constructor throws "Invalid capacity" (InvalidArgument) for every
    capacity below 1, and for every capacity from 1 on builds an empty,
    well-formed array of exactly that capacity. *)
Theorem construct_contract {T} (T_default : T) (capacity : Z) :
  (capacity < 1 ->
   construct T_default capacity
   = Throw (runtime_error "Invalid capacity") raw /\
   error_kind (runtime_error "Invalid capacity") = Some InvalidArgument) /\
  (1 <= capacity ->
   exists this,
     construct T_default capacity = Ok tt this /\
     wf this /\ Array.capacity this = capacity /\ size this = 0 /\
     empty this = true /\ contents this = []).
Proof.
  split.
  - intros H. split; [apply construct_invalid; exact H | reflexivity].
  - intros H. eexists. split; [apply construct_valid; exact H|].
    unfold wf, inv, Array.capacity, size, empty, contents, block_of. simpl.
    rewrite length_replicate. repeat split; lia.
Qed.

Lemma construct_contract_witness :
  (0 < 1 /\
   construct 0 0 = Throw (runtime_error "Invalid capacity") raw) /\
  (1 <= 3 /\
   exists this,
     construct 0 3 = Ok tt this /\ capacity this = 3 /\ size this = 0).
Proof.
  split.
  - split; [lia|]. apply (construct_contract 0 0). lia.
  - split; [lia|].
    destruct (proj2 (construct_contract 0 3)) as (this & H1 & _ & H2 & H3 & _);
      [lia|].
    exists this. split; [exact H1|]. split; [exact H2 | exact H3].
Defined.

(** ** Reads *)

(** X2: [at(index)] and the [const] [operator[]] return the element at
    position [index] of the sequence and leave the array as it is when
    [0 <= index < size]; for every other index they throw
    [std::out_of_range], whatever the capacity. *)
Theorem read_contract {T} (this : @Array T) (index : Z) :
  (wf this -> 0 <= index < size this ->
   exists x,
     contents this !! Z.to_nat index = Some x /\
     at_ index this = Ok x this /\
     operator_index_const index this = Ok x this) /\
  (~ (0 <= index < size this) ->
   at_ index this = Throw (out_of_range "Index out of bounds") this /\
   operator_index_const index this
   = Throw (out_of_range "Index out of bounds") this).
Proof.
  unfold size. split.
  - intros Hwf Hindex. destruct (at_wf index this Hwf Hindex) as (x & Hat & Hx).
    exists x. split; [exact Hx|]. split; exact Hat.
  - intros Hindex. split; apply at_out_of_range; exact Hindex.
Qed.

Lemma read_contract_witness :
  (wf two_of_four /\ 0 <= 1 < size two_of_four /\
   at_ 1 two_of_four = Ok 2 two_of_four) /\
  (~ (0 <= 2 < size two_of_four) /\
   at_ 2 two_of_four
   = Throw (out_of_range "Index out of bounds") two_of_four).
Proof.
  split.
  - split; [by_evaluation|]. split; [by_evaluation|].
    destruct (proj1 (read_contract two_of_four 1)) as (x & Hx & Hat & _);
      [by_evaluation ..|].
    injection Hx as <-. exact Hat.
  - split; [by_evaluation|].
    apply (read_contract two_of_four 2). by_evaluation.
Defined.

(** ** A run of [push] *)

(** X3: pushing the values of a list one after the other onto a well-formed
    array succeeds as long as twice the final size is a value of [int]; the
    size grows by the length of the list, the values are appended in their
    order, and [at(size + i)] then returns the [i]-th value pushed. *)
Theorem push_each_appends
    {T} (T_default : T) (values : list T) (this : Array) :
  wf this ->
  2 * (size this + Z.of_nat (length values)) <= INT_MAX ->
  exists this',
    push_each T_default values this = Ok tt this' /\
    wf this' /\
    size this' = size this + Z.of_nat (length values) /\
    contents this' = contents this ++ values /\
    forall (i : nat) x,
      values !! i = Some x ->
      at_ (size this + Z.of_nat i) this' = Ok x this'.
Proof.
  unfold size. intros Hwf Hfits.
  destruct (push_each_wf T_default values this Hwf Hfits)
    as (this' & Hrun & Hwf' & Hs & Hcont).
  exists this'. repeat split; try apply Hwf'; try assumption.
  intros i x Hx. pose proof (lookup_lt_Some _ _ _ Hx) as Hi.
  pose proof Hwf as [Hinv _]. unfold inv in Hinv.
  destruct (at_wf (_size this + Z.of_nat i) this' Hwf') as (y & Hat & Hy);
    [lia|].
  rewrite Hcont, lookup_app_r in Hy
    by (rewrite length_contents by exact Hwf; lia).
  rewrite length_contents in Hy by exact Hwf.
  replace (Z.to_nat (_size this + Z.of_nat i) - Z.to_nat (_size this))%nat
    with i in Hy by lia.
  rewrite Hx in Hy. injection Hy as <-. exact Hat.
Qed.

Lemma push_each_appends_witness :
  wf fresh /\
  2 * (size fresh + Z.of_nat (length [5; 6; 7])) <= INT_MAX /\
  exists this',
    push_each 0 [5; 6; 7] fresh = Ok tt this' /\
    size this' = 3 /\ contents this' = [5; 6; 7] /\
    at_ 2 this' = Ok 7 this'.
Proof.
  split; [by_evaluation|]. split; [by_evaluation|].
  destruct (push_each_appends 0 [5; 6; 7] fresh)
    as (this' & H1 & _ & H2 & H3 & H4); [by_evaluation ..|].
  exists this'. split; [exact H1|]. split; [exact H2|]. split; [exact H3|].
  apply (H4 2%nat 7). reflexivity.
Defined.

(** ** Positional insert and remove *)

(** X4: on a well-formed array, for [0 <= index < size] and as long as the
    capacity it grows to is a value of [int], [insert_at] puts the value at
    position [index], keeps the elements before it and moves the others one
    position up; the size grows by one, [at(index)] returns the value, and
    the capacity is [2 * (capacity + 1)] when the array was full, twice the
    capacity when the insert fills it, and unchanged otherwise. *)
Theorem insert_at_effect
    {T} (T_default : T) (this : Array) (index : Z) (value : T) :
  wf this -> insert_at_fits this -> 0 <= index < size this ->
  exists this',
    insert_at T_default index value this = Ok tt this' /\
    wf this' /\
    size this' = size this + 1 /\
    contents this'
    = take (Z.to_nat index) (contents this)
        ++ value :: drop (Z.to_nat index) (contents this) /\
    at_ index this' = Ok value this' /\
    capacity this'
    = (if size this =? capacity this then 2 * (capacity this + 1)
       else if size this + 1 =? capacity this then 2 * capacity this
            else capacity this).
Proof.
  unfold size, capacity. intros Hwf Hfits Hindex.
  destruct (insert_at_wf T_default index value this Hwf Hindex Hfits)
    as (this' & Hrun & Hwf' & Hc & Hs & Hcont).
  exists this'. repeat split; try apply Hwf'; try assumption.
  destruct (at_wf index this' Hwf') as (y & Hat & Hy); [lia|].
  rewrite Hcont in Hy.
  rewrite (list_lookup_middle _ _ value) in Hy
    by (rewrite length_take, length_contents by exact Hwf; lia).
  injection Hy as <-. exact Hat.
Qed.

Lemma insert_at_effect_witness :
  wf two_of_four /\ insert_at_fits two_of_four /\
  0 <= 1 < size two_of_four /\
  exists this',
    insert_at 0 1 99 two_of_four = Ok tt this' /\
    contents this' = [1; 99; 2] /\ capacity this' = 4.
Proof.
  split; [by_evaluation|]. split; [by_evaluation|]. split; [by_evaluation|].
  destruct (insert_at_effect 0 two_of_four 1 99)
    as (this' & H1 & _ & _ & H2 & _ & H3); [by_evaluation ..|].
  exists this'. split; [exact H1|]. split; [exact H2 | exact H3].
Defined.

(** X5: on a well-formed array whose capacity is a value of [int],
    [remove_at(index, length)] with [0 <= index < size], [length >= 1] and
    [index + length - 1 < size] takes out exactly the [length] elements from
    position [index] and keeps the others in their order; the size drops by
    [length], and the capacity is halved when the new size is below a
    quarter of it and is unchanged otherwise. *)
Theorem remove_at_effect {T} (T_default : T) (this : Array) (index len : Z) :
  wf this -> capacity this <= INT_MAX ->
  0 <= index < size this -> 1 <= len ->
  index + len - 1 < size this ->
  exists this',
    remove_at T_default index len this = Ok tt this' /\
    wf this' /\
    size this' = size this - len /\
    contents this'
    = take (Z.to_nat index) (contents this)
        ++ drop (Z.to_nat (index + len)) (contents this) /\
    capacity this'
    = (if size this - len <? Z.quot (capacity this) 4
       then Z.quot (capacity this) 2
       else capacity this).
Proof.
  unfold size, capacity. intros Hwf Hint Hindex Hlen Hend.
  destruct (remove_at_wf T_default index len this Hwf Hint)
    as (this' & Hrun & Hwf' & Hc & Hs & Hcont); [lia ..|].
  exists this'. repeat split; try apply Hwf'; assumption.
Qed.

Lemma remove_at_effect_witness :
  wf four_of_four /\ capacity four_of_four <= INT_MAX /\
  0 <= 1 < size four_of_four /\ 1 <= 2 /\
  1 + 2 - 1 < size four_of_four /\
  exists this',
    remove_at 0 1 2 four_of_four = Ok tt this' /\
    contents this' = [1; 4] /\ size this' = 2 /\ capacity this' = 4.
Proof.
  split; [by_evaluation|]. split; [by_evaluation|].
  split; [by_evaluation|]. split; [lia|].
  split; [by_evaluation|].
  destruct (remove_at_effect 0 four_of_four 1 2)
    as (this' & H1 & _ & H2 & H3 & H4); [by_evaluation ..|].
  exists this'. split; [exact H1|]. split; [exact H3|].
  split; [exact H2 | exact H4].
Defined.

(** X6: the guards of [remove_at] in their order.  An index outside
    [0 <= index < size] throws "Index out of bounds" whatever the length;
    with a valid index, a negative length throws "Invalid length"
    (InvalidArgument), the length 0 is a no-op, and a run that ends at or
    after [size] throws "Length is out of bounds" when its last index
    [index + length - 1] is a value of [int]; the array is left as it was in
    each case.  When that last index is not a value of [int], the sum
    overflows and the behaviour is undefined. *)
Theorem remove_at_guards {T} (T_default : T) (this : Array) (index len : Z) :
  (~ (0 <= index < size this) ->
   remove_at T_default index len this
   = Throw (out_of_range "Index out of bounds") this) /\
  (0 <= index < size this ->
   (len < 0 ->
    remove_at T_default index len this
    = Throw (runtime_error "Invalid length") this /\
    error_kind (runtime_error "Invalid length") = Some InvalidArgument) /\
   (len = 0 -> remove_at T_default index len this = Ok tt this) /\
   (1 <= len -> size this <= index + len - 1 <= INT_MAX ->
    remove_at T_default index len this
    = Throw (out_of_range "Length is out of bounds") this) /\
   (1 <= len -> INT_MAX < index + len - 1 ->
    remove_at T_default index len this = Undefined)).
Proof.
  unfold size. split.
  - apply remove_at_out_of_range.
  - intros Hindex. repeat split.
    + apply remove_at_invalid_length; assumption.
    + intros ->. apply remove_at_zero_length. exact Hindex.
    + intros Hlen Hend. apply remove_at_length_out_of_bounds; lia.
    + intros Hlen Hover. apply remove_at_overflow; lia.
Qed.

Lemma remove_at_guards_witness :
  (~ (0 <= 5 < size two_of_four) /\
   remove_at 0 5 (-1) two_of_four
   = Throw (out_of_range "Index out of bounds") two_of_four) /\
  (0 <= 1 < size two_of_four /\
   remove_at 0 1 (-1) two_of_four
   = Throw (runtime_error "Invalid length") two_of_four /\
   remove_at 0 1 0 two_of_four = Ok tt two_of_four /\
   size two_of_four <= 1 + 2 - 1 <= INT_MAX /\
   remove_at 0 1 2 two_of_four
   = Throw (out_of_range "Length is out of bounds") two_of_four) /\
  (0 <= 2 < size four_of_four /\ 1 <= INT_MAX /\
   INT_MAX < 2 + INT_MAX - 1 /\
   remove_at 0 2 INT_MAX four_of_four = Undefined).
Proof.
  split; [|split].
  - split; [by_evaluation|].
    apply (remove_at_guards 0 two_of_four 5 (-1)). by_evaluation.
  - split; [by_evaluation|]. split; [|split; [|split]].
    + apply (remove_at_guards 0 two_of_four 1 (-1)); by_evaluation.
    + apply (remove_at_guards 0 two_of_four 1 0); by_evaluation.
    + by_evaluation.
    + apply (remove_at_guards 0 two_of_four 1 2); by_evaluation.
  - split; [by_evaluation|]. split; [by_evaluation|].
    split; [by_evaluation|].
    apply (remove_at_guards 0 four_of_four 2 INT_MAX); by_evaluation.
Defined.

(** ** Removal at the ends *)

(** X7: on a well-formed, non-empty array whose capacity is a value of
    [int], [pop_back()] removes the last element and [pop_front()] the first
    one: the size drops by one and the other elements keep their order. *)
Theorem pop_back_pop_front_effect {T} (T_default : T) (this : Array) :
  wf this -> capacity this <= INT_MAX -> 1 <= size this ->
  (exists this',
      pop_back T_default this = Ok tt this' /\
      wf this' /\ size this' = size this - 1 /\
      contents this' = take (Z.to_nat (size this - 1)) (contents this)) /\
  (exists this',
      pop_front T_default this = Ok tt this' /\
      wf this' /\ size this' = size this - 1 /\
      contents this' = drop 1 (contents this)).
Proof.
  unfold size, capacity. intros Hwf Hint Hsize. split.
  - destruct (pop_back_wf T_default this Hwf Hint Hsize)
      as (this' & Hrun & Hwf' & _ & Hs & Hcont).
    exists this'. auto.
  - destruct (pop_front_wf T_default this Hwf Hint Hsize)
      as (this' & Hrun & Hwf' & _ & Hs & Hcont).
    exists this'. auto.
Qed.

Lemma pop_back_pop_front_effect_witness :
  wf four_of_four /\ capacity four_of_four <= INT_MAX /\
  1 <= size four_of_four /\
  (exists this',
      pop_back 0 four_of_four = Ok tt this' /\ contents this' = [1; 2; 3]) /\
  (exists this',
      pop_front 0 four_of_four = Ok tt this' /\ contents this' = [2; 3; 4]).
Proof.
  split; [by_evaluation|]. split; [by_evaluation|]. split; [by_evaluation|].
  destruct (pop_back_pop_front_effect 0 four_of_four)
    as ((back & B1 & _ & _ & B2) & (front & F1 & _ & _ & F2));
    [by_evaluation ..|].
  split; [exists back | exists front]; split; assumption.
Defined.

(** X8: [push(v)] followed by [pop_back()] on a well-formed array whose
    capacity, also after the doubling of the push, is a value of [int]
    succeeds and restores the size and the element sequence; when the array
    was full before the push, the capacity the push doubled is not halved
    again. *)
Theorem push_pop_back_roundtrip
    {T} (T_default : T) (this : Array) (value : T) :
  wf this -> capacity this <= INT_MAX -> push_fits this ->
  exists this1 this2,
    push T_default value this = Ok tt this1 /\
    pop_back T_default this1 = Ok tt this2 /\
    size this2 = size this /\
    contents this2 = contents this /\
    (full this = true -> capacity this2 = capacity this1).
Proof.
  unfold size, capacity. intros Hwf Hint Hfits.
  pose proof Hwf as [Hinv _]. unfold inv in Hinv.
  destruct (push_wf T_default value this Hwf)
    as (this1 & Hpush & Hwf1 & Hc1 & Hs1 & Hcont1).
  { unfold full. intros Hfull. apply Z.eqb_eq in Hfull. auto. }
  assert (_capacity this1 <= INT_MAX) as Hint1.
  { rewrite Hc1. unfold full.
    destruct (Z.eqb_spec (_size this) (_capacity this)) as [Hfull|Hfull];
      [|exact Hint].
    specialize (Hfits Hfull).
    destruct (Z.eqb_spec (_capacity this) 0); unfold INT_MAX in *; lia. }
  destruct (pop_back_wf T_default this1 Hwf1 Hint1)
    as (this2 & Hpop & Hwf2 & Hc2 & Hs2 & Hcont2); [lia|].
  exists this1, this2. repeat split; try assumption.
  - lia.
  - rewrite Hcont2, Hcont1, Hs1.
    replace (Z.to_nat (_size this + 1 - 1)) with (Z.to_nat (_size this))
      by lia.
    apply take_app_length'. rewrite length_contents by exact Hwf.
    reflexivity.
  - intros Hfull. rewrite Hc2, Hc1, Hs1, Hfull.
    unfold full in Hfull. apply Z.eqb_eq in Hfull.
    destruct (Z.eqb_spec (_capacity this) 0);
      match goal with
      | |- context [?a <? ?b] => destruct (Z.ltb_spec a b)
      end; (Z.to_euclidean_division_equations; lia).
Qed.

Lemma push_pop_back_roundtrip_witness :
  wf two_of_two /\ capacity two_of_two <= INT_MAX /\
  push_fits two_of_two /\ full two_of_two = true /\
  exists this1 this2,
    push 0 3 two_of_two = Ok tt this1 /\
    pop_back 0 this1 = Ok tt this2 /\
    contents this2 = contents two_of_two /\
    capacity this2 = capacity this1.
Proof.
  split; [by_evaluation|]. split; [by_evaluation|].
  split; [by_evaluation|]. split; [reflexivity|].
  destruct (push_pop_back_roundtrip 0 two_of_two 3)
    as (this1 & this2 & H1 & H2 & _ & H3 & H4); [by_evaluation ..|].
  exists this1, this2. split; [exact H1|]. split; [exact H2|].
  split; [exact H3|]. apply H4. reflexivity.
Defined.

(** ** [reverse] *)

(** X9: on a well-formed array [reverse()] succeeds, reverses the element
    sequence, and keeps the size and the capacity. *)
Theorem reverse_effect {T} (this : @Array T) :
  wf this ->
  exists this',
    reverse this = Ok tt this' /\
    wf this' /\
    size this' = size this /\ capacity this' = capacity this /\
    contents this' = rev (contents this).
Proof.
  unfold size, capacity. intros Hwf.
  destruct (reverse_wf this Hwf) as (this' & Hrun & Hwf' & Hc & Hs & Hcont).
  exists this'. auto.
Qed.

Lemma reverse_effect_witness :
  wf four_of_four /\
  exists this',
    reverse four_of_four = Ok tt this' /\ contents this' = [4; 3; 2; 1].
Proof.
  split; [by_evaluation|].
  destruct (reverse_effect four_of_four) as (this' & H1 & _ & _ & _ & H2);
    [by_evaluation|].
  exists this'. split; [exact H1 | exact H2].
Defined.

(** X10: [reverse()] applied twice to a well-formed array restores the
    element sequence, for every size. *)
Theorem reverse_twice {T} (this : @Array T) :
  wf this ->
  exists this1 this2,
    reverse this = Ok tt this1 /\
    reverse this1 = Ok tt this2 /\
    size this2 = size this /\
    contents this2 = contents this.
Proof.
  unfold size. intros Hwf.
  destruct (reverse_wf this Hwf) as (this1 & Hrun1 & Hwf1 & _ & Hs1 & Hcont1).
  destruct (reverse_wf this1 Hwf1) as (this2 & Hrun2 & _ & _ & Hs2 & Hcont2).
  exists this1, this2. repeat split; try assumption.
  - lia.
  - rewrite Hcont2, Hcont1. apply rev_involutive.
Qed.

Lemma reverse_twice_witness :
  wf two_of_four /\
  exists this1 this2,
    reverse two_of_four = Ok tt this1 /\
    reverse this1 = Ok tt this2 /\
    contents this2 = contents two_of_four.
Proof.
  split; [by_evaluation|].
  destruct (reverse_twice two_of_four) as (this1 & this2 & H1 & H2 & _ & H3);
    [by_evaluation|].
  exists this1, this2. split; [exact H1|]. split; [exact H2 | exact H3].
Defined.

(** ** Search and removal by value *)

(** X11: on a well-formed array [find(value)] leaves the array as it is and
    returns either -1, when no element compares equal to the value, or the
    position of the first element that does. *)
Theorem find_first_occurrence
    {T} (T_eqb : T -> T -> bool) (this : Array) (value : T) :
  wf this ->
  exists r,
    find T_eqb value this = Ok r this /\
    ((r = -1 /\
      forall (j : nat) y,
        contents this !! j = Some y -> T_eqb y value = false) \/
     (0 <= r < size this /\
      (exists x,
          contents this !! Z.to_nat r = Some x /\ T_eqb x value = true) /\
      forall (j : nat) y,
        (j < Z.to_nat r)%nat ->
        contents this !! j = Some y -> T_eqb y value = false)).
Proof. unfold size. apply find_wf. Qed.

Lemma find_first_occurrence_witness :
  wf four_of_four /\
  exists r,
    find Z.eqb 3 four_of_four = Ok r four_of_four /\
    (r = -1 \/ 0 <= r < size four_of_four).
Proof.
  split; [by_evaluation|].
  destruct (find_first_occurrence Z.eqb four_of_four 3) as (r & Hr & Hcase);
    [by_evaluation|].
  exists r. split; [exact Hr|].
  destruct Hcase as [(Hnone & _) | (Hrange & _)]; [left | right]; assumption.
Defined.

(** X12: on a well-formed array whose capacity is a value of [int],
    [remove(value)] never throws; it leaves the array as it is when no
    element compares equal to the value, and otherwise removes the first
    element that does and only that one. *)
Theorem remove_first_occurrence
    {T} (T_default : T) (T_eqb : T -> T -> bool) (this : Array) (value : T) :
  wf this -> capacity this <= INT_MAX ->
  exists this',
    remove T_default T_eqb value this = Ok tt this' /\
    wf this' /\
    (((forall (j : nat) y,
          contents this !! j = Some y -> T_eqb y value = false) /\
      this' = this) \/
     (exists r x,
         0 <= r < size this /\
         contents this !! Z.to_nat r = Some x /\ T_eqb x value = true /\
         (forall (j : nat) y,
             (j < Z.to_nat r)%nat ->
             contents this !! j = Some y -> T_eqb y value = false) /\
         size this' = size this - 1 /\
         contents this'
         = take (Z.to_nat r) (contents this)
             ++ drop (Z.to_nat (r + 1)) (contents this))).
Proof.
  unfold size, capacity. intros Hwf Hint.
  destruct (remove_wf T_default T_eqb value this Hwf Hint)
    as (this' & Hrun & Hwf' & Hr).
  exists this'. split; [exact Hrun|]. split; [exact Hwf'|].
  destruct Hr as [Hnone | (r & x & Hrange & Hx & Heq & Hbefore & _ & Hs & Hc)].
  - left. exact Hnone.
  - right. exists r, x. auto 10.
Qed.

Lemma remove_first_occurrence_witness :
  wf four_of_four /\ capacity four_of_four <= INT_MAX /\
  exists this',
    remove 0 Z.eqb 3 four_of_four = Ok tt this' /\ wf this'.
Proof.
  split; [by_evaluation|]. split; [by_evaluation|].
  destruct (remove_first_occurrence 0 Z.eqb four_of_four 3)
    as (this' & H1 & H2 & _); [by_evaluation ..|].
  exists this'. split; [exact H1 | exact H2].
Defined.

(** ** Safety of the public operations *)

(** X13: on a well-formed array whose capacity is between 1 and [INT_MAX],
    a public operation other than [clear] whose sums stay in the range of
    [int] (the doubled capacity of [push] and [insert_at], the last index of
    [remove_at]) has no undefined behaviour: it neither overflows nor reads
    or writes outside the block of [_array]; and when it returns normally
    the array is again well-formed with a capacity of at least 1. *)
Theorem public_operations_are_safe
    {T} (T_default : T) (T_eqb : T -> T -> bool) (c : call) (this : Array) :
  wf this -> 1 <= capacity this <= INT_MAX -> c <> Clear ->
  call_fits c this ->
  run T_default T_eqb c this <> Undefined /\
  forall this',
    run T_default T_eqb c this = Ok tt this' ->
    wf this' /\ 1 <= capacity this'.
Proof.
  unfold capacity. intros Hwf Hcap Hc Hfits.
  destruct (run_wf_cases T_default T_eqb c this Hwf Hcap Hc Hfits)
    as [(this1 & Hrun & Hwf1 & Hcap1) | (e & Hrun)]; rewrite Hrun.
  - split; [discriminate|]. intros this' [= <-]. auto.
  - split; [discriminate|]. intros this'. discriminate.
Qed.

Lemma public_operations_are_safe_witness :
  wf four_of_four /\ 1 <= capacity four_of_four <= INT_MAX /\
  InsertAt 1 99 <> Clear /\ call_fits (InsertAt 1 99) four_of_four /\
  run 0 Z.eqb (InsertAt 1 99) four_of_four <> Undefined.
Proof.
  split; [by_evaluation|]. split; [by_evaluation|].
  split; [discriminate|]. split; [by_evaluation|].
  apply (public_operations_are_safe 0 Z.eqb (InsertAt 1 99) four_of_four);
    first [by_evaluation | discriminate].
Defined.

(** X14: on a well-formed array whose capacity is between 1 and [INT_MAX],
    a public operation whose sums stay in the range of [int] and that leaves
    by an exception of the class leaves the array exactly as it was before
    the call. *)
Theorem throwing_operation_changes_nothing
    {T} (T_default : T) (T_eqb : T -> T -> bool) (c : call) (this : Array)
    (e : exn) (this' : Array) :
  wf this -> 1 <= capacity this <= INT_MAX -> call_fits c this ->
  run T_default T_eqb c this = Throw e this' ->
  this' = this.
Proof.
  unfold capacity. intros Hwf Hcap Hfits Hrun.
  destruct (call_is_clear c) as [-> | Hc].
  - discriminate Hrun.
  - destruct (run_wf_cases T_default T_eqb c this Hwf Hcap Hc Hfits)
      as [(this1 & Hrun1 & _) | (e1 & Hrun1)]; rewrite Hrun1 in Hrun.
    + discriminate Hrun.
    + injection Hrun as _ <-. reflexivity.
Qed.

Lemma throwing_operation_changes_nothing_witness :
  wf two_of_two /\ 1 <= capacity two_of_two <= INT_MAX /\
  call_fits (OperatorIndex 0) two_of_two /\
  exists e this',
    run 0 Z.eqb (OperatorIndex 0) two_of_two = Throw e this' /\
    this' = two_of_two.
Proof.
  split; [by_evaluation|]. split; [by_evaluation|]. split; [by_evaluation|].
  exists (runtime_error "Array is full"), two_of_two.
  split; [reflexivity|].
  apply (throwing_operation_changes_nothing 0 Z.eqb (OperatorIndex 0)
           two_of_two (runtime_error "Array is full") two_of_two);
    first [by_evaluation | reflexivity].
Defined.

(** ** After [clear] *)

(** X15: after [clear()] on an array of capacity at least 1 the array has no
    block while its capacity is not 0: a following [push] and a following
    assignment through [operator[](0)] write through the null pointer
    (undefined behaviour), while a following [resize] to a different valid
    capacity gives a well-formed empty array of that capacity. *)
Theorem operations_after_clear
    {T} (T_default : T) (this : Array) (value : T) (new_capacity : Z) :
  1 <= capacity this ->
  (clear ;; push T_default value) this = Undefined /\
  (clear ;; assign_at 0 value) this = Undefined /\
  (1 <= new_capacity -> new_capacity <> capacity this ->
   exists this',
     (clear ;; resize T_default new_capacity) this = Ok tt this' /\
     wf this' /\ capacity this' = new_capacity /\ size this' = 0).
Proof.
  unfold capacity, size. intros Hcap.
  split; [apply push_after_clear; exact Hcap|].
  split; [apply assign_after_clear; exact Hcap|].
  intros Hn Hne. eexists.
  split; [apply resize_after_clear; assumption|].
  unfold wf, inv, block_of. simpl. rewrite length_replicate.
  repeat split; lia.
Qed.

Lemma operations_after_clear_witness :
  1 <= capacity four_of_four /\
  (clear ;; push 0 5) four_of_four = Undefined /\
  (1 <= 2 /\ 2 <> capacity four_of_four /\
   exists this',
     (clear ;; resize 0 2) four_of_four = Ok tt this' /\ size this' = 0).
Proof.
  split; [by_evaluation|].
  destruct (operations_after_clear 0 four_of_four 5 2)
    as (H1 & _ & H2); [by_evaluation|].
  split; [exact H1|]. split; [lia|]. split; [by_evaluation|].
  destruct H2 as (this' & H3 & _ & _ & H4); [by_evaluation ..|].
  exists this'. split; [exact H3 | exact H4].
Defined.

(** ** Assignment through the mutable [operator[]] *)

(** X16: on a well-formed array that is not full, [a[index] = value] with
    [0 <= index < size] replaces the element at [index] and changes nothing
    else, and [a[size] = value] does exactly what [push(value)] does. *)
Theorem assign_at_effect
    {T} (T_default : T) (this : Array) (index : Z) (value : T) :
  wf this -> full this = false ->
  (0 <= index < size this ->
   exists this',
     assign_at index value this = Ok tt this' /\
     wf this' /\
     capacity this' = capacity this /\ size this' = size this /\
     contents this' = <[Z.to_nat index := value]> (contents this)) /\
  assign_at (size this) value this = push T_default value this.
Proof.
  unfold size, capacity. intros Hwf Hfull. split.
  - intros Hindex. apply assign_at_inside; assumption.
  - apply assign_at_boundary; assumption.
Qed.

Lemma assign_at_effect_witness :
  wf two_of_four /\ full two_of_four = false /\
  (0 <= 0 < size two_of_four /\
   exists this',
     assign_at 0 8 two_of_four = Ok tt this' /\ contents this' = [8; 2]) /\
  assign_at (size two_of_four) 8 two_of_four = push 0 8 two_of_four.
Proof.
  split; [by_evaluation|]. split; [reflexivity|].
  destruct (assign_at_effect 0 two_of_four 0 8) as (Hin & Hpush);
    [by_evaluation | reflexivity |].
  split; [|exact Hpush].
  split; [by_evaluation|].
  destruct Hin as (this' & H1 & _ & _ & _ & H2); [by_evaluation|].
  exists this'. split; [exact H1 | exact H2].
Defined.

End Array.
